(** * edge-cors: CORS header negotiation for edge request/response handlers

    A shallow embedding of [src/cors.ts] and the properties of its
    specification.

    Modelling choices.
    - The platform classes [Headers], [Request] and [Response] are not part
      of the repository.  They are modelled after the Fetch standard, to the
      extent the program uses them.  A header collection is a finite map
      from lower-cased names to the list of values appended under that
      name.  [set] and [append] first strip the HTTP whitespace around the
      value and then refuse, with a [TypeError], a value that holds a NUL, a
      carriage return or a line feed; [get] joins the values with a comma
      and a space; iteration visits the combined entries in the order of
      their names.  Every name the program writes under is one of its own
      literals, or a name iteration gave it: all are valid header names.
      [new Response(null, { status, headers })] converts the status to an
      unsigned short and refuses, with a [RangeError], one outside 200 to
      599.  The collections the program writes to are taken to be writable
      ones (a response obtained from the network has an immutable
      collection, on which every write throws).
    - A string is a sequence of bytes.
    - A number reaches the program in two places: [String(opts.maxAge)] and
      the [status] member handed to the [Response] constructor, which
      converts it to an unsigned short.  A number is modelled by what these
      two conversions make of it, whatever the number is: an integer, a
      fraction, NaN or an infinity.
    - Objects that the caller can observe live in a store: the options
      object handed to [cors], the working copy [cors] makes of it, every
      [Response] and the header collection a response owns.  The two scratch
      collections built by [getOriginHeaders] and [getAllowedHeaders] never
      escape before they are merged, and are plain values.
    - An optional property of the options object is either missing from the
      object, present with the value [undefined], or present with a value;
      object spread copies the last two and skips the first.
    - An origin function is a function of the request origin and the request
      that resolves to a value or rejects; [await] is sequencing.  A
      regular expression is one whose [test] depends on the string alone,
      that is, one without the [g] and [y] flags. *)

From Stdlib Require Import DecimalString.
From stdpp Require Import gmap strings list fin_maps sorting.

Set Warnings "-register-all".

Local Open Scope string_scope.
Local Open Scope list_scope.

(** ** Strings *)

(** ASCII lower-casing of header names (byte-case-insensitive names). *)
Definition lower_ascii (a : Ascii.ascii) : Ascii.ascii :=
  let n := Ascii.nat_of_ascii a in
  if (65 <=? n)%nat && (n <=? 90)%nat then Ascii.ascii_of_nat (n + 32) else a.

Fixpoint lower (s : string) : string :=
  match s with
  | EmptyString => EmptyString
  | String a s' => String (lower_ascii a) (lower s')
  end.

(** [Array.prototype.join] on an array of strings. *)
Definition join (sep : string) (l : list string) : string := String.concat sep l.

(** Truthiness of a string: every string but the empty one. *)
Definition nonempty (s : string) : bool := negb (String.eqb s "").

(** ** Errors *)

Inductive error := TypeError | RangeError | Rejected.

Inductive result (A : Type) := Ok (a : A) | Throw (e : error).
Arguments Ok {A} a.
Arguments Throw {A} e.

Global Instance result_ret : MRet result := λ A a, Ok a.

Global Instance result_bind : MBind result := λ A B k m,
  match m with
  | Ok a => k a
  | Throw e => Throw e
  end.

(** ** Header values *)

(** HTTP whitespace: tab, line feed, carriage return and space. *)
Definition isHttpWhitespace (a : Ascii.ascii) : bool :=
  let n := Ascii.nat_of_ascii a in
  (n =? 9)%nat || (n =? 10)%nat || (n =? 13)%nat || (n =? 32)%nat.

Fixpoint trimStart (s : string) : string :=
  match s with
  | EmptyString => EmptyString
  | String a s' => if isHttpWhitespace a then trimStart s' else s
  end.

Fixpoint trimEnd (s : string) : string :=
  match s with
  | EmptyString => EmptyString
  | String a s' =>
      match trimEnd s' with
      | EmptyString => if isHttpWhitespace a then EmptyString else String a EmptyString
      | t => String a t
      end
  end.

(** Normalizing a value: the whitespace before and after it is dropped. *)
Definition normalize (value : string) : string := trimEnd (trimStart value).

(** The bytes no header value may hold: NUL, line feed, carriage return. *)
Definition isForbidden (a : Ascii.ascii) : bool :=
  let n := Ascii.nat_of_ascii a in
  (n =? 0)%nat || (n =? 10)%nat || (n =? 13)%nat.

(** A normalized value is a header value when it holds no such byte (the
    other condition, no whitespace at either end, holds of every normalized
    value). *)
Fixpoint isHeaderValue (value : string) : bool :=
  match value with
  | EmptyString => true
  | String a s' => negb (isForbidden a) && isHeaderValue s'
  end.

(** ** The platform's header collection *)

Abbreviation HeaderMap := (gmap string (list string)).

Definition name_le (a b : string * list string) : Prop :=
  String.leb a.1 b.1 = true.

Global Instance name_le_dec : RelDecision name_le.
Proof. intros a b. unfold name_le. apply _. Defined.

Module Headers.

(** [new Headers()] *)
Definition new : HeaderMap := ∅.

(** [headers.get(name)]: [None] is JavaScript's [null]. *)
Definition get (h : HeaderMap) (name : string) : option string :=
  join ", " <$> h !! lower name.

(** [headers.set(name, value)] *)
Definition set (h : HeaderMap) (name value : string) : result HeaderMap :=
  let value := normalize value in
  if isHeaderValue value then Ok (<[lower name := [value]]> h)
  else Throw TypeError.

(** [headers.append(name, value)] *)
Definition append (h : HeaderMap) (name value : string) : result HeaderMap :=
  let value := normalize value in
  if isHeaderValue value
  then Ok (<[lower name := default [] (h !! lower name) ++ [value]]> h)
  else Throw TypeError.

(** The entries iteration visits: names in order, values combined, but
    for Set-Cookie, whose values are visited one by one. *)
Definition entries (h : HeaderMap) : list (string * string) :=
  kv ← merge_sort name_le (map_to_list h);
  if String.eqb kv.1 "set-cookie" then (λ v, (kv.1, v)) <$> kv.2
  else [(kv.1, join ", " kv.2)].

End Headers.

(** ** Requests *)

Module Request.
Record t := mk { method : string; headers : HeaderMap }.
End Request.

(** ** Numbers *)

Module Number.

(** [toString] is [String(n)]; [toUnsignedShort] is the conversion of [n]
    to an unsigned short. *)
Record t := mk { toString : string; toUnsignedShort : Z }.

(** The number that is the integer [z], for [z] from -2^53 to 2^53: these
    are numbers, and [String] writes them in decimal, digit for digit. *)
Definition ofZ (z : Z) : t :=
  mk (NilZero.string_of_int (Z.to_int z)) (z `mod` 65536).

Definition NaN : t := mk "NaN" 0.

(** 10^21, which [String] writes with an exponent. *)
Definition sextillion : t := mk "1e+21" ((10 ^ 21) `mod` 65536).

(** 1.5 *)
Definition oneAndAHalf : t := mk "1.5" 1.

End Number.

(** ** Configuration values *)

(** [RegExp]: only [test] is used.  The patterns covered are those whose
    [test] depends on the string alone, that is, those without the [g] and
    [y] flags; with either flag [test] also reads and writes [lastIndex],
    which is not modelled. *)
Record RegExp := { test : string → bool }.

(** [StaticOrigin], as a run-time value.  The declared element type of an
    array is [boolean | string | RegExp]; [isOriginAllowed] recurses into
    whatever it finds.  [OUndefined] is the value an origin function yields
    when it returns nothing. *)
Inductive StaticOrigin :=
| OBool (b : bool)
| OStr (s : string)
| ORegExp (r : RegExp)
| OArr (l : list StaticOrigin)
| OUndefined.

(** [OriginFn]: a function that resolves to a value or rejects, and does
    nothing else. *)
Definition OriginFn := option string → Request.t → result StaticOrigin.

Inductive OriginOption :=
| Static (v : StaticOrigin)
| Fn (f : OriginFn).

(** [string | string[]] *)
Inductive StringOrArray :=
| Str (s : string)
| Arr (l : list string).

(** An optional property of an object. *)
Inductive field (T : Type) := Omitted | Undefined | Value (v : T).
Arguments Omitted {T}.
Arguments Undefined {T}.
Arguments Value {T} v.

(** Reading a property: [None] is [undefined]. *)
Definition read {T} (f : field T) : option T :=
  match f with Value v => Some v | _ => None end.

Record CorsOptions := {
  origin : field OriginOption;
  methods : field StringOrArray;
  allowedHeaders : field StringOrArray;
  exposedHeaders : field StringOrArray;
  credentials : field bool;
  maxAge : field Number.t;
  preflightContinue : field bool;
  optionsSuccessStatus : field Number.t
}.

Definition defaultOptions : CorsOptions := {|
  origin := Value (Static (OStr "*"));
  methods := Value (Str "GET,HEAD,PUT,PATCH,POST,DELETE");
  allowedHeaders := Omitted;
  exposedHeaders := Omitted;
  credentials := Omitted;
  maxAge := Omitted;
  preflightContinue := Value false;
  optionsSuccessStatus := Value (Number.ofZ 204)
|}.

(** The object with no property: what spreading [undefined] contributes. *)
Definition noOptions : CorsOptions := {|
  origin := Omitted; methods := Omitted; allowedHeaders := Omitted;
  exposedHeaders := Omitted; credentials := Omitted; maxAge := Omitted;
  preflightContinue := Omitted; optionsSuccessStatus := Omitted
|}.

(** One property of [{ ...base, ...top }]. *)
Definition over {T} (base top : field T) : field T :=
  match top with Omitted => base | _ => top end.

(** [{ ...base, ...top }] *)
Definition spread (base top : CorsOptions) : CorsOptions := {|
  origin := over (origin base) (origin top);
  methods := over (methods base) (methods top);
  allowedHeaders := over (allowedHeaders base) (allowedHeaders top);
  exposedHeaders := over (exposedHeaders base) (exposedHeaders top);
  credentials := over (credentials base) (credentials top);
  maxAge := over (maxAge base) (maxAge top);
  preflightContinue := over (preflightContinue base) (preflightContinue top);
  optionsSuccessStatus := over (optionsSuccessStatus base) (optionsSuccessStatus top)
|}.

(** Truthiness of a [StaticOrigin] value. *)
Definition truthy (v : StaticOrigin) : bool :=
  match v with
  | OBool b => b
  | OStr s => nonempty s
  | ORegExp _ => true
  | OArr _ => true
  | OUndefined => false
  end.

(** ** Origin matching *)

Fixpoint isOriginAllowed (origin : string) (allowed : StaticOrigin) : bool :=
  match allowed with
  | OArr l => existsb (isOriginAllowed origin) l
  | OStr s => String.eqb origin s
  | ORegExp r => test r origin
  | OBool b => b
  | OUndefined => false
  end.

(** Truthiness of [reqOrigin : string | undefined]. *)
Definition present (o : option string) : bool :=
  match o with Some s => nonempty s | None => false end.

(** [origin === '*'] *)
Definition isWildcard (origin : StaticOrigin) : bool :=
  match origin with OStr s => String.eqb s "*" | _ => false end.

Definition getOriginHeaders (reqOrigin : option string) (origin : StaticOrigin)
  : result HeaderMap :=
  let headers := Headers.new in
  if isWildcard origin then
    Headers.set headers "Access-Control-Allow-Origin" "*"
  else
    match origin with
    | OStr s =>
        headers ← Headers.set headers "Access-Control-Allow-Origin" s;
        Headers.append headers "Vary" "Origin"
    | _ =>
        let allowed := isOriginAllowed (default "" reqOrigin) origin in
        headers ←
          (if allowed && present reqOrigin
           then Headers.set headers "Access-Control-Allow-Origin"
                  (default "" reqOrigin)
           else Ok headers);
        Headers.append headers "Vary" "Origin"
    end.

(** [x || undefined] on [string | null]. *)
Definition orUndefined (o : option string) : option string :=
  match o with
  | Some s => if nonempty s then Some s else None
  | None => None
  end.

Definition originHeadersFromReq (req : Request.t) (origin : OriginOption)
  : result (option HeaderMap) :=
  let reqOrigin := orUndefined (Headers.get (Request.headers req) "Origin") in
  value ← match origin with
          | Fn f => f reqOrigin req
          | Static v => Ok v
          end;
  if negb (truthy value) then Ok None
  else headers ← getOriginHeaders reqOrigin value; Ok (Some headers).

(** ** Allowed headers *)

(** [Array.isArray(x) ? x.join(',') : x] *)
Definition joined (x : option StringOrArray) : option string :=
  match x with
  | Some (Arr l) => Some (join "," l)
  | Some (Str s) => Some s
  | None => None
  end.

(** Truthiness of [string | string[] | undefined]. *)
Definition truthyList (x : option StringOrArray) : bool :=
  match x with
  | Some (Arr _) => true
  | Some (Str s) => nonempty s
  | None => false
  end.

(** [typeof x === 'string'] *)
Definition isString (x : option StringOrArray) : bool :=
  match x with Some (Str _) => true | _ => false end.

Definition getAllowedHeaders (req : Request.t) (allowed : option StringOrArray)
  : result HeaderMap :=
  let headers := Headers.new in
  '(allowed, headers) ←
    (if negb (truthyList allowed) && negb (isString allowed) then
       let allowed :=
         Headers.get (Request.headers req) "Access-Control-Request-Headers" in
       headers ← Headers.append headers "Vary" "Access-Control-Request-Headers";
       Ok (allowed, headers)
     else
       (* an array is turned into a string, a string stays *)
       Ok (joined allowed, headers));
  if present allowed
  then Headers.set headers "Access-Control-Allow-Headers" (default "" allowed)
  else Ok headers.

(** ** The store *)

Abbreviation loc := positive.

Module Response.
Record t := mk { headers : loc; status : Z; body : option string }.

(** The status the constructor works with: the [status] member converted
    to an unsigned short, 200 when the member is [undefined]. *)
Definition statusOf (status : option Number.t) : Z :=
  match status with
  | Some n => Number.toUnsignedShort n
  | None => 200
  end.

(** The range the constructor accepts. *)
Definition inRange (status : Z) : bool :=
  (200 <=? status)%Z && (status <=? 599)%Z.
End Response.

Inductive cell :=
| CHeaders (h : HeaderMap)
| CResponse (r : Response.t)
| CObject (o : CorsOptions).

Abbreviation heap := (gmap loc cell).

(** Computations that read and write the store and may throw; what was
    written before a throw stays written. *)
Definition M (A : Type) : Type := heap → result A * heap.

Global Instance M_ret : MRet M := λ A a σ, (Ok a, σ).

Global Instance M_bind : MBind M := λ A B k m σ,
  match m σ with
  | (Ok a, σ') => k a σ'
  | (Throw e, σ') => (Throw e, σ')
  end.

(** A settled promise awaited, or the outcome of a call that may throw. *)
Definition await {A} (r : result A) : M A := λ σ, (r, σ).

Definition alloc (c : cell) : M loc :=
  λ σ, let l := fresh (dom σ) in (Ok l, <[l := c]> σ).

Definition getObject (l : loc) : M CorsOptions :=
  λ σ, match σ !! l with
       | Some (CObject o) => (Ok o, σ)
       | _ => (Throw TypeError, σ)
       end.

Definition getResponse (l : loc) : M Response.t :=
  λ σ, match σ !! l with
       | Some (CResponse r) => (Ok r, σ)
       | _ => (Throw TypeError, σ)
       end.

Definition getHeaders (l : loc) : M HeaderMap :=
  λ σ, match σ !! l with
       | Some (CHeaders h) => (Ok h, σ)
       | _ => (Throw TypeError, σ)
       end.

(** A write to the collection at [l]: the collection is replaced when the
    write goes through, and is as it was when the write throws. *)
Definition update (l : loc) (f : HeaderMap → result HeaderMap) : M unit :=
  λ σ, match σ !! l with
       | Some (CHeaders h) =>
           match f h with
           | Ok h' => (Ok (), <[l := CHeaders h']> σ)
           | Throw e => (Throw e, σ)
           end
       | _ => (Throw TypeError, σ)
       end.

(** [headers.set(k, v)] on the collection at [l]. *)
Definition headersSet (l : loc) (k v : string) : M unit :=
  update l (λ h, Headers.set h k v).

(** [headers.append(k, v)] on the collection at [l]. *)
Definition headersAppend (l : loc) (k v : string) : M unit :=
  update l (λ h, Headers.append h k v).

(** [h.forEach(f)]: [f] receives the value, then the name. *)
Definition forEach (h : HeaderMap) (f : string → string → M unit) : M unit :=
  foldr (λ kv rest, f kv.2 kv.1;; rest) (mret ()) (Headers.entries h).

(** [new Response(null, { status, headers })]: the status is checked
    first; the new response owns a new collection filled from
    [headers]. *)
Definition newResponse (status : option Number.t) (headers : loc) : M loc :=
  let status := Response.statusOf status in
  if Response.inRange status then
    h ← getHeaders headers;
    own ← alloc (CHeaders h);
    alloc (CResponse (Response.mk own status None))
  else λ σ, (Throw RangeError, σ).

(** ** The decision function *)

(** [if (b) m] *)
Definition when (b : bool) (m : M unit) : M unit := if b then m else mret ().

(** [opts.origin ?? false] *)
Definition originOr (opts : CorsOptions) : OriginOption :=
  default (Static (OBool false)) (read (origin opts)).

Definition mergeHeaders (headers : loc) (v k : string) : M unit :=
  if String.eqb k "vary" then headersAppend headers k v
  else headersSet headers k v.

Definition cors (req : Request.t) (res : loc) (options : option loc) : M loc :=
  given ← match options with
          | Some l => getObject l
          | None => mret noOptions
          end;
  working ← alloc (CObject (spread defaultOptions given));
  opts ← getObject working;
  r ← getResponse res;
  let headers := Response.headers r in
  originHeaders ←
    await (originHeadersFromReq req (originOr opts));
  match originHeaders with
  | None => mret res
  | Some originHeaders =>
      forEach originHeaders (mergeHeaders headers);;
      when (default false (read (credentials opts)))
        (headersSet headers "Access-Control-Allow-Credentials" "true");;
      let exposed := joined (read (exposedHeaders opts)) in
      when (present exposed)
        (headersSet headers "Access-Control-Expose-Headers" (default "" exposed));;
      if String.eqb (Request.method req) "OPTIONS" then
        when (truthyList (read (methods opts)))
          (headersSet headers "Access-Control-Allow-Methods"
             (default "" (joined (read (methods opts)))));;
        allowedHeaders ←
          await (getAllowedHeaders req (read (allowedHeaders opts)));
        forEach allowedHeaders (mergeHeaders headers);;
        match read (maxAge opts) with
        | Some n =>
            headersSet headers "Access-Control-Max-Age" (Number.toString n)
        | None => mret ()
        end;;
        if default false (read (preflightContinue opts)) then mret res
        else
          headersSet headers "Content-Length" "0";;
          newResponse (read (optionsSuccessStatus opts)) headers
      else mret res
  end.

(** [initCors] *)
Definition initCors (options : option loc) : Request.t → loc → M loc :=
  λ req res, cors req res options.

(** ** Summaries used in the proofs

    The writes [cors] makes to the collection of the response it is given,
    as a list, and what running the list does to the collection.  The list
    is proved to describe the store-passing definition above, not
    assumed. *)

Inductive write :=
| WSet (name value : string)
| WAppend (name value : string).

(** One write, on the collection itself. *)
Definition perform (h : HeaderMap) (w : write) : result HeaderMap :=
  match w with
  | WSet k v => Headers.set h k v
  | WAppend k v => Headers.append h k v
  end.

(** The writes in order, up to the first that throws. *)
Fixpoint runWrites (ws : list write) (h : HeaderMap) : result unit * HeaderMap :=
  match ws with
  | [] => (Ok (), h)
  | w :: ws =>
      match perform h w with
      | Ok h' => runWrites ws h'
      | Throw e => (Throw e, h)
      end
  end.

(** The write [mergeHeaders] makes of one entry. *)
Definition mergeWrite (kv : string * string) : write :=
  if String.eqb kv.1 "vary" then WAppend kv.1 kv.2 else WSet kv.1 kv.2.

(** The writes of [c.forEach(mergeHeaders)]. *)
Definition mergeWrites (c : HeaderMap) : list write :=
  mergeWrite <$> Headers.entries c.

(** Whether the platform accepts a value for a header. *)
Definition accepted (value : string) : bool := isHeaderValue (normalize value).

Definition acceptedIf (value : option string) : bool :=
  match value with Some v => accepted v | None => true end.

(** The request is a preflight request. *)
Definition isPreflight (req : Request.t) : bool :=
  String.eqb (Request.method req) "OPTIONS".

(** The value written under Access-Control-Expose-Headers, if any. *)
Definition exposedValue (opts : CorsOptions) : option string :=
  orUndefined (joined (read (exposedHeaders opts))).

(** The value written under Access-Control-Allow-Methods, if any. *)
Definition methodsValue (opts : CorsOptions) : option string :=
  if truthyList (read (methods opts)) then joined (read (methods opts))
  else None.

(** [getAllowedHeaders] reflects the request's headers. *)
Definition reflects (allowed : option StringOrArray) : bool :=
  negb (truthyList allowed) && negb (isString allowed).

(** The value written under Access-Control-Allow-Headers, if any. *)
Definition allowedValue (req : Request.t) (allowed : option StringOrArray)
  : option string :=
  orUndefined
    (if reflects allowed
     then Headers.get (Request.headers req) "Access-Control-Request-Headers"
     else joined allowed).

(** The value written under Access-Control-Max-Age, if any. *)
Definition maxAgeValue (opts : CorsOptions) : option string :=
  Number.toString <$> read (maxAge opts).

Definition optWrite (name : string) (value : option string) : list write :=
  match value with Some v => [WSet name v] | None => [] end.

(** The writes every request goes through after the origin headers. *)
Definition commonWrites (opts : CorsOptions) : list write :=
  (if default false (read (credentials opts))
   then [WSet "Access-Control-Allow-Credentials" "true"] else [])
  ++ optWrite "Access-Control-Expose-Headers" (exposedValue opts).

(** The writes that merging the allowed headers amounts to. *)
Definition allowedWrites (req : Request.t) (allowed : option StringOrArray)
  : list write :=
  optWrite "Access-Control-Allow-Headers" (allowedValue req allowed)
  ++ (if reflects allowed
      then [WAppend "Vary" "Access-Control-Request-Headers"] else []).

(** The further writes of a preflight request, up to [maxAge]. *)
Definition preflightWrites (req : Request.t) (opts : CorsOptions) : list write :=
  optWrite "Access-Control-Allow-Methods" (methodsValue opts)
  ++ allowedWrites req (read (allowedHeaders opts))
  ++ optWrite "Access-Control-Max-Age" (maxAgeValue opts).

(** The writes up to the test of [preflightContinue]. *)
Definition headerWrites (req : Request.t) (opts : CorsOptions) (oh : HeaderMap)
  : list write :=
  mergeWrites oh ++ commonWrites opts
  ++ (if isPreflight req then preflightWrites req opts else []).

(** The call ends with a new response. *)
Definition closes (req : Request.t) (opts : CorsOptions) : bool :=
  isPreflight req && negb (default false (read (preflightContinue opts))).

(** All the writes of a call. *)
Definition corsWrites (req : Request.t) (opts : CorsOptions) (oh : HeaderMap)
  : list write :=
  headerWrites req opts oh
  ++ (if closes req opts then [WSet "Content-Length" "0"] else []).

(** The writes after the origin headers. *)
Definition laterWrites (req : Request.t) (opts : CorsOptions) : list write :=
  commonWrites opts
  ++ (if isPreflight req then preflightWrites req opts else [])
  ++ (if closes req opts then [WSet "Content-Length" "0"] else []).

(** The writes that merging the origin headers amounts to. *)
Definition originWrites (reqOrigin : option string) (value : StaticOrigin)
  : list write :=
  if isWildcard value then [WSet "access-control-allow-origin" "*"]
  else
    match value with
    | OStr s =>
        [WSet "access-control-allow-origin" (normalize s);
         WAppend "vary" "Origin"]
    | _ =>
        (if isOriginAllowed (default "" reqOrigin) value && present reqOrigin
         then [WSet "access-control-allow-origin"
                 (normalize (default "" reqOrigin))]
         else [])
        ++ [WAppend "vary" "Origin"]
    end.

(** The options object [cors] is called with: the object at [l], or no
    object at all. *)
Definition optionsAt (σ : heap) (options : option loc) (o : CorsOptions) : Prop :=
  match options with
  | Some l => σ !! l = Some (CObject o)
  | None => o = noOptions
  end.

(** The outcome of [cors] on a store where [res] is a response [r] whose
    collection holds [h], and the caller's options are [o]. *)
Definition corsOutcome (req : Request.t) (res : loc) (r : Response.t)
    (h : HeaderMap) (o : CorsOptions) (σ : heap) : result loc * heap :=
  let opts := spread defaultOptions o in
  let hl := Response.headers r in
  let σ1 := <[fresh (dom σ) := CObject opts]> σ in
  match originHeadersFromReq req (originOr opts) with
  | Throw e => (Throw e, σ1)
  | Ok None => (Ok res, σ1)
  | Ok (Some oh) =>
      let run := runWrites (corsWrites req opts oh) h in
      let σ2 := <[hl := CHeaders run.2]> σ1 in
      match run.1 with
      | Throw e => (Throw e, σ2)
      | Ok _ =>
          if closes req opts
          then newResponse (read (optionsSuccessStatus opts)) hl σ2
          else (Ok res, σ2)
      end
  end.

(** A computation that makes the writes [ws] to the collection at [hl],
    and nothing else. *)
Definition performs (hl : loc) (m : M unit) (ws : list write) : Prop :=
  ∀ σ h, σ !! hl = Some (CHeaders h) →
         m σ = ((runWrites ws h).1, <[hl := CHeaders (runWrites ws h).2]> σ).

(** A computation that makes the writes [ws] to the collection at [hl] and,
    when they all go through, ends as [fin]. *)
Definition finishes {A} (hl : loc) (m : M A) (ws : list write) (fin : M A)
  : Prop :=
  ∀ σ h, σ !! hl = Some (CHeaders h) →
         m σ = match (runWrites ws h).1 with
               | Ok _ => fin (<[hl := CHeaders (runWrites ws h).2]> σ)
               | Throw e => (Throw e, <[hl := CHeaders (runWrites ws h).2]> σ)
               end.

(** The name a write is filed under, whether the platform accepts it, and
    what it does to a collection when it does. *)
Definition target (w : write) : string :=
  match w with WSet k _ | WAppend k _ => lower k end.

Definition acceptedW (w : write) : bool :=
  match w with WSet _ v | WAppend _ v => accepted v end.

Definition put (h : HeaderMap) (w : write) : HeaderMap :=
  match w with
  | WSet k v => <[lower k := [normalize v]]> h
  | WAppend k v => <[lower k := default [] (h !! lower k) ++ [normalize v]]> h
  end.

(** The writes made before the first one that throws. *)
Fixpoint validPrefix (ws : list write) : list write :=
  match ws with
  | [] => []
  | w :: ws => if acceptedW w then w :: validPrefix ws else []
  end.

(** What is filed under [k] after the writes [ws], all accepted, when
    [cur] was filed under it before. *)
Fixpoint after (ws : list write) (k : string) (cur : option (list string))
  : option (list string) :=
  match ws with
  | [] => cur
  | w :: ws =>
      after ws k
        (if String.eqb (target w) k then
           match w with
           | WSet _ v => Some [normalize v]
           | WAppend _ v => Some (default [] cur ++ [normalize v])
           end
         else cur)
  end.

(** Some write of [ws] is filed under [k]. *)
Definition touches (k : string) (ws : list write) : bool :=
  existsb (λ w, String.eqb (target w) k) ws.

(** The writes of [ws] are filed under names of [names] only. *)
Definition within (names : list string) (ws : list write) : Prop :=
  ∀ k, touches k ws = true → k ∈ names.

(** Some write of [ws] sets [k]. *)
Definition sets (k : string) (ws : list write) : bool :=
  existsb (λ w, match w with
                | WSet n _ => String.eqb (lower n) k
                | WAppend _ _ => false
                end) ws.

(** A string that does not start with whitespace. *)
Definition startsClean (s : string) : bool :=
  match s with
  | EmptyString => true
  | String a _ => negb (isHttpWhitespace a)
  end.

(** A string without whitespace and without NUL. *)
Fixpoint plain (s : string) : bool :=
  match s with
  | EmptyString => true
  | String a s' => negb (isHttpWhitespace a) && negb (isForbidden a) && plain s'
  end.

(** Cells that are not header collections are kept from [σ] to [σ']. *)
Definition keeps (σ σ' : heap) : Prop :=
  ∀ l c, σ !! l = Some c → (∀ h, c ≠ CHeaders h) → σ' !! l = Some c.

Definition keeping {A} (m : M A) : Prop := ∀ σ, keeps σ (m σ).2.

(** Every cell of [σ] but the one at [hl] is the same in [σ']. *)
Definition framed (hl : loc) (σ σ' : heap) : Prop :=
  ∀ l, is_Some (σ !! l) → l ≠ hl → σ' !! l = σ !! l.

Definition framing {A} (hl : loc) (m : M A) : Prop := ∀ σ, framed hl σ (m σ).2.

(** The request origin [originHeadersFromReq] works with. *)
Definition reqOriginOf (req : Request.t) : option string :=
  orUndefined (Headers.get (Request.headers req) "Origin").

(** The value the configured origin resolves to for a request: the value
    itself, or what the origin function resolves to. *)
Definition resolvesTo (req : Request.t) (cfg : OriginOption) (value : StaticOrigin)
  : Prop :=
  match cfg with
  | Static v => v = value
  | Fn f => f (reqOriginOf req) req = Ok value
  end.

(** ** Notions the statements use *)

(** The platform accepts every value the options have [cors] write for the
    request, after the origin headers. *)
Definition headersAccepted (req : Request.t) (opts : CorsOptions) : bool :=
  acceptedIf (exposedValue opts)
  && (if isPreflight req then
        acceptedIf (methodsValue opts)
        && acceptedIf (allowedValue req (read (allowedHeaders opts)))
        && acceptedIf (maxAgeValue opts)
      else true).

(** The status of the response [cors] constructs. *)
Definition statusFor (opts : CorsOptions) : Z :=
  Response.statusOf (read (optionsSuccessStatus opts)).

(** The collection after the writes up to the test of
    [preflightContinue]. *)
Definition accumulated (req : Request.t) (opts : CorsOptions) (oh h : HeaderMap)
  : HeaderMap :=
  (runWrites (headerWrites req opts oh) h).2.

(** The collection of the given response once [cors] is done with it. *)
Definition finalHeaders (req : Request.t) (opts : CorsOptions) (oh h : HeaderMap)
  : HeaderMap :=
  (runWrites (corsWrites req opts oh) h).2.

(** The collection of the given response after a call, as a function of
    the request, the caller's options and the collection before. *)
Definition leaves (req : Request.t) (o : CorsOptions) (h : HeaderMap) : HeaderMap :=
  let opts := spread defaultOptions o in
  match originHeadersFromReq req (originOr opts) with
  | Ok (Some oh) => finalHeaders req opts oh h
  | _ => h
  end.

(** What a call throws, if anything, as a function of the request and the
    caller's options. *)
Definition ending (req : Request.t) (o : CorsOptions) : option error :=
  let opts := spread defaultOptions o in
  match originHeadersFromReq req (originOr opts) with
  | Throw e => Some e
  | Ok None => None
  | Ok (Some _) =>
      if negb (headersAccepted req opts) then Some TypeError
      else if closes req opts && negb (Response.inRange (statusFor opts))
           then Some RangeError
           else None
  end.

(** Some write of [ws] appends under [k]. *)
Definition appendsTo (k : string) (ws : list write) : bool :=
  existsb (λ w, match w with
                | WAppend n _ => String.eqb (lower n) k
                | WSet _ _ => false
                end) ws.

(** No regular expression occurs in an origin value. *)
Fixpoint regexFree (v : StaticOrigin) : bool :=
  match v with
  | ORegExp _ => false
  | OArr l => forallb regexFree l
  | _ => true
  end.

(** [opts.preflightContinue], as a condition. *)
Definition continues (o : CorsOptions) : bool :=
  match preflightContinue o with Value true => true | _ => false end.

(** ** Sample objects

    A store with a response at 1 that owns the collection at 2, and an
    options object at 3. *)

Definition sampleResponse : Response.t := Response.mk 2 200 (Some "{}").

Definition sampleStore (h : HeaderMap) (o : CorsOptions) : heap :=
  <[3%positive := CObject o]>
    (<[2%positive := CHeaders h]>
       (<[1%positive := CResponse sampleResponse]> ∅)).

Definition sampleRequest (method : string) (origin : string) : Request.t :=
  Request.mk method {["origin" := [origin]]}.

Definition samplePreflight : Request.t :=
  Request.mk "OPTIONS"
    {["access-control-request-headers" := ["x-header-1, x-header-2"]]}.

Definition withMaxAge (n : Number.t) : CorsOptions := {|
  origin := Omitted; methods := Omitted; allowedHeaders := Omitted;
  exposedHeaders := Omitted; credentials := Omitted; maxAge := Value n;
  preflightContinue := Omitted; optionsSuccessStatus := Omitted
|}.

Definition withOrigin (v : OriginOption) : CorsOptions := {|
  origin := Value v; methods := Omitted; allowedHeaders := Omitted;
  exposedHeaders := Omitted; credentials := Omitted; maxAge := Omitted;
  preflightContinue := Omitted; optionsSuccessStatus := Omitted
|}.

Definition withStatus (n : Number.t) : CorsOptions := {|
  origin := Omitted; methods := Omitted; allowedHeaders := Omitted;
  exposedHeaders := Omitted; credentials := Omitted; maxAge := Omitted;
  preflightContinue := Omitted; optionsSuccessStatus := Value n
|}.

Definition optionsOf (og : field OriginOption) (m a e : field StringOrArray)
    (c : field bool) (n : field Number.t) : CorsOptions := {|
  origin := og; methods := m; allowedHeaders := a; exposedHeaders := e;
  credentials := c; maxAge := n;
  preflightContinue := Omitted; optionsSuccessStatus := Omitted
|}.

(** A line feed, and a value with a line feed inside. *)
Definition LF : string := String (Ascii.ascii_of_nat 10) "".

Definition twoLines : string := "a" +:+ LF +:+ "b".

(** A pattern anchored at the end, such as [/vercel\.com$/]. *)
Definition endsWith (suffix : string) : RegExp :=
  {| test := λ s, String.prefix (String.rev suffix) (String.rev s) |}.

(** What a run left at [l], read as [Object.fromEntries(headers)]. *)
Definition entriesAt (l : loc) (run : result loc * heap)
  : option (list (string * string)) :=
  match run.2 !! l with
  | Some (CHeaders h) => Some (Headers.entries h)
  | _ => None
  end.

(** The status of the response a run returned. *)
Definition statusOf (run : result loc * heap) : option Z :=
  match run.1 with
  | Ok l =>
      match run.2 !! l with
      | Some (CResponse r) => Some (Response.status r)
      | _ => None
      end
  | Throw _ => None
  end.

(** An origin function that rejects. *)
Definition rejecting : OriginFn := λ _ _, Throw Rejected.

(** A store with two responses, at 1 and 4, that own the collections at 2
    and 5, and an options object at 3. *)
Definition twoResponses (h1 h2 : HeaderMap) (o : CorsOptions) : heap :=
  <[5%positive := CHeaders h2]>
    (<[4%positive := CResponse (Response.mk 5 200 None)]> (sampleStore h1 o)).

(** * Properties *)

(** ** Header values *)

Section value_facts.
Implicit Types (s t : string) (z : Z).

Lemma trimEnd_idem s : trimEnd (trimEnd s) = trimEnd s.
Proof.
  induction s as [|a s IH]; [done|]. simpl.
  destruct (trimEnd s) as [|b t] eqn:Ht.
  - destruct (isHttpWhitespace a) eqn:Ha; [done|]. simpl. by rewrite Ha.
  - simpl. simpl in IH. by rewrite IH.
Qed.

Lemma startsClean_trimStart s : startsClean (trimStart s) = true.
Proof.
  induction s as [|a s IH]; [done|]. simpl.
  destruct (isHttpWhitespace a) eqn:Ha; [done|]. simpl. by rewrite Ha.
Qed.

Lemma trimStart_clean t : startsClean t = true → trimStart t = t.
Proof.
  destruct t as [|a t]; [done|]. simpl. intros Ha.
  apply negb_true_iff in Ha. by rewrite Ha.
Qed.

Lemma startsClean_trimEnd t : startsClean t = true → startsClean (trimEnd t) = true.
Proof.
  destruct t as [|a t]; [done|]. simpl. intros Ha.
  destruct (trimEnd t); [|done].
  apply negb_true_iff in Ha. rewrite Ha. simpl. by rewrite Ha.
Qed.

Lemma normalize_idem s : normalize (normalize s) = normalize s.
Proof.
  unfold normalize.
  rewrite (trimStart_clean (trimEnd (trimStart s))).
  - apply trimEnd_idem.
  - apply startsClean_trimEnd, startsClean_trimStart.
Qed.

Lemma accepted_normalize s : accepted (normalize s) = accepted s.
Proof. unfold accepted. by rewrite normalize_idem. Qed.

Lemma plain_trimEnd s : plain s = true → trimEnd s = s.
Proof.
  induction s as [|a s IH]; [done|]. simpl.
  intros [[Ha _]%andb_prop Hs]%andb_prop.
  rewrite (IH Hs). apply negb_true_iff in Ha. rewrite Ha. by destruct s.
Qed.

Lemma plain_normalize s : plain s = true → normalize s = s.
Proof.
  intros Hs. unfold normalize. rewrite trimStart_clean.
  - by apply plain_trimEnd.
  - destruct s as [|a s]; [done|]. simpl in *.
    by apply andb_prop in Hs as [[Ha _]%andb_prop _].
Qed.

Lemma plain_value s : plain s = true → isHeaderValue s = true.
Proof.
  induction s as [|a s IH]; [done|]. simpl.
  intros [[_ Ha]%andb_prop Hs]%andb_prop. by rewrite Ha, IH.
Qed.

Lemma plain_accepted s : plain s = true → accepted s = true.
Proof.
  intros Hs. unfold accepted. rewrite plain_normalize by done.
  by apply plain_value.
Qed.

Lemma plain_digits d : plain (NilEmpty.string_of_uint d) = true.
Proof. induction d; simpl; try done. Qed.

Lemma plain_decimal z : plain (Number.toString (Number.ofZ z)) = true.
Proof.
  simpl. destruct (Z.to_int z) as [d|d]; simpl.
  - destruct d; try apply plain_digits. done.
  - destruct d; try apply (plain_digits (_ d)); try done.
Qed.

End value_facts.

(** ** Writes to a collection *)

Section write_facts.
Implicit Types (h : HeaderMap) (w : write) (ws : list write) (k : string).

Lemma perform_put h w :
  perform h w = if acceptedW w then Ok (put h w) else Throw TypeError.
Proof. by destruct w. Qed.

Lemma runWrites_spec ws h :
  runWrites ws h
  = (if forallb acceptedW ws then Ok () else Throw TypeError,
     foldl put h (validPrefix ws)).
Proof.
  revert h. induction ws as [|w ws IH]; intros h; [done|]. simpl.
  rewrite perform_put. destruct (acceptedW w); [|done]. simpl. apply IH.
Qed.

Lemma runWrites_app ws1 ws2 h :
  runWrites (ws1 ++ ws2) h
  = match (runWrites ws1 h).1 with
    | Ok _ => runWrites ws2 (runWrites ws1 h).2
    | Throw e => (Throw e, (runWrites ws1 h).2)
    end.
Proof.
  revert h. induction ws1 as [|w ws1 IH]; intros h; [done|]. simpl.
  destruct (perform h w); [apply IH|done].
Qed.

Lemma validPrefix_app ws1 ws2 :
  validPrefix (ws1 ++ ws2)
  = if forallb acceptedW ws1 then ws1 ++ validPrefix ws2 else validPrefix ws1.
Proof.
  induction ws1 as [|w ws1 IH]; [done|]. simpl.
  destruct (acceptedW w); [|done]. simpl. rewrite IH.
  by destruct (forallb acceptedW ws1).
Qed.

Lemma validPrefix_accepted ws : forallb acceptedW ws = true → validPrefix ws = ws.
Proof.
  induction ws as [|w ws IH]; [done|]. simpl.
  intros [-> Hws]%andb_prop. by rewrite IH.
Qed.

Lemma put_lookup h w k : put h w !! k = after [w] k (h !! k).
Proof.
  destruct w as [n v|n v]; simpl.
  - destruct (String.eqb_spec (lower n) k) as [->|Hne].
    + by rewrite lookup_insert_eq.
    + by rewrite lookup_insert_ne.
  - destruct (String.eqb_spec (lower n) k) as [->|Hne].
    + by rewrite lookup_insert_eq.
    + by rewrite lookup_insert_ne.
Qed.

Lemma after_cons w ws k cur : after (w :: ws) k cur = after ws k (after [w] k cur).
Proof. done. Qed.

Lemma after_app ws1 ws2 k cur :
  after (ws1 ++ ws2) k cur = after ws2 k (after ws1 k cur).
Proof. revert cur. induction ws1 as [|w ws1 IH]; intros cur; [done|]. apply IH. Qed.

Lemma foldl_put_lookup ws h k : foldl put h ws !! k = after ws k (h !! k).
Proof.
  revert h. induction ws as [|w ws IH]; intros h; [done|].
  simpl foldl. rewrite IH, put_lookup. done.
Qed.

Lemma after_untouched ws k cur : touches k ws = false → after ws k cur = cur.
Proof.
  revert cur. induction ws as [|w ws IH]; intros cur; [done|]. simpl.
  intros [-> Hws]%orb_false_elim. by apply IH.
Qed.

Lemma touches_app k ws1 ws2 : touches k (ws1 ++ ws2) = touches k ws1 || touches k ws2.
Proof. apply existsb_app. Qed.

Lemma sets_app k ws1 ws2 : sets k (ws1 ++ ws2) = sets k ws1 || sets k ws2.
Proof. apply existsb_app. Qed.

Lemma touches_validPrefix k ws : touches k ws = false → touches k (validPrefix ws) = false.
Proof.
  induction ws as [|w ws IH]; [done|]. simpl.
  intros [Hw Hws]%orb_false_elim. destruct (acceptedW w); [|done].
  simpl. by rewrite Hw, IH.
Qed.

Lemma sets_validPrefix k ws : sets k ws = false → sets k (validPrefix ws) = false.
Proof.
  induction ws as [|w ws IH]; [done|]. simpl.
  intros [Hw Hws]%orb_false_elim. destruct (acceptedW w); [|done].
  simpl. by rewrite Hw, IH.
Qed.

(** No write removes a name. *)
Lemma after_is_Some ws k cur : is_Some cur → is_Some (after ws k cur).
Proof.
  revert cur. induction ws as [|w ws IH]; intros cur Hcur; [done|]. simpl.
  apply IH. destruct (String.eqb (target w) k); [|done]. by destruct w.
Qed.

(** Writes that do not set [k] keep what is filed under it, in front. *)
Lemma after_extends ws k old :
  sets k ws = false → ∃ more, after ws k (Some old) = Some (old ++ more).
Proof.
  revert old. induction ws as [|w ws IH]; intros old.
  - intros _. exists []. by rewrite app_nil_r.
  - simpl. intros [Hw Hws]%orb_false_elim.
    destruct w as [n v|n v]; simpl.
    + rewrite Hw. by apply IH.
    + destruct (String.eqb (lower n) k).
      * destruct (IH (old ++ [normalize v]) Hws) as [more Hmore].
        exists (normalize v :: more). rewrite Hmore. by rewrite <- app_assoc.
      * by apply IH.
Qed.

(** The collection a run leaves, name by name. *)
Lemma runWrites_lookup ws h k :
  (runWrites ws h).2 !! k = after (validPrefix ws) k (h !! k).
Proof. rewrite runWrites_spec. apply foldl_put_lookup. Qed.

Lemma runWrites_outcome ws h :
  (runWrites ws h).1 = if forallb acceptedW ws then Ok () else Throw TypeError.
Proof. by rewrite runWrites_spec. Qed.

Lemma get_lookup h name : Headers.get h name = join ", " <$> h !! lower name.
Proof. done. Qed.

Lemma join_single (sep s : string) : join sep [s] = s.
Proof. done. Qed.

End write_facts.

(** ** The scratch collections *)

Section scratch_facts.
Implicit Types (h oh : HeaderMap) (ro : option string) (v value : StaticOrigin).

Lemma set_accepted h (name s : string) :
  accepted s = true →
  Headers.set h name s = Ok (<[lower name := [normalize s]]> h).
Proof. unfold Headers.set, accepted. by intros ->. Qed.

Lemma set_rejected h (name s : string) :
  accepted s = false → Headers.set h name s = Throw TypeError.
Proof. unfold Headers.set, accepted. by intros ->. Qed.

Lemma isWildcard_true v : isWildcard v = true ↔ v = OStr "*".
Proof.
  destruct v; simpl; try (split; [done|congruence]).
  rewrite String.eqb_eq. split; congruence.
Qed.

Lemma isWildcard_false v : isWildcard v = false ↔ v ≠ OStr "*".
Proof.
  rewrite <- isWildcard_true. destruct (isWildcard v); split; congruence.
Qed.

Lemma nonempty_true s : nonempty s = true ↔ s ≠ "".
Proof.
  unfold nonempty. rewrite negb_true_iff. apply String.eqb_neq.
Qed.

(** The origin headers, when [getOriginHeaders] returns them. *)
Lemma getOriginHeaders_ok ro value oh :
  getOriginHeaders ro value = Ok oh →
  mergeWrites oh = originWrites ro value
  ∧ forallb acceptedW (originWrites ro value) = true.
Proof.
  unfold getOriginHeaders, originWrites.
  destruct (isWildcard value) eqn:Hw.
  { intros [= <-]. done. }
  assert (Hother : ∀ h0,
            (if isOriginAllowed (default "" ro) value && present ro
             then Headers.set Headers.new "Access-Control-Allow-Origin"
                    (default "" ro)
             else Ok Headers.new) = Ok h0 →
            Headers.append h0 "Vary" "Origin" = Ok oh →
            mergeWrites oh
            = (if isOriginAllowed (default "" ro) value && present ro
               then [WSet "access-control-allow-origin"
                       (normalize (default "" ro))]
               else []) ++ [WAppend "vary" "Origin"]
            ∧ forallb acceptedW
                ((if isOriginAllowed (default "" ro) value && present ro
                  then [WSet "access-control-allow-origin"
                          (normalize (default "" ro))]
                  else []) ++ [WAppend "vary" "Origin"]) = true).
  { intros h0 Hset Happ.
    destruct (isOriginAllowed (default "" ro) value && present ro).
    - destruct (accepted (default "" ro)) eqn:Hacc.
      + rewrite set_accepted in Hset by done. injection Hset as <-.
        injection Happ as <-. split; [done|].
        simpl. by rewrite accepted_normalize, Hacc.
      + by rewrite set_rejected in Hset.
    - injection Hset as <-. injection Happ as <-. done. }
  destruct value as [b|s|r|l|]; simpl;
    try (destruct (_ && _) eqn:Hc; [destruct (Headers.set _ _ _) as [h0|] eqn:Hset
                                    |]; simpl; try done; intros Happ;
         eapply Hother; try done; by rewrite Hc).
  destruct (accepted s) eqn:Hacc.
  - rewrite set_accepted by done. simpl. intros [= <-]. split; [done|].
    simpl. by rewrite accepted_normalize, Hacc.
  - by rewrite set_rejected.
Qed.

Lemma originHeadersFromReq_some req cfg oh :
  originHeadersFromReq req cfg = Ok (Some oh)
  ↔ ∃ value, resolvesTo req cfg value ∧ truthy value = true
             ∧ getOriginHeaders (reqOriginOf req) value = Ok oh.
Proof.
  unfold originHeadersFromReq, resolvesTo. fold (reqOriginOf req). split.
  - destruct cfg as [v|f]; simpl.
    + destruct (truthy v) eqn:Ht; simpl; [|done].
      destruct (getOriginHeaders _ v) eqn:Hg; simpl; [|done].
      intros [= <-]. by exists v.
    + destruct (f _ req) as [v|]; simpl; [|done].
      destruct (truthy v) eqn:Ht; simpl; [|done].
      destruct (getOriginHeaders _ v) eqn:Hg; simpl; [|done].
      intros [= <-]. by exists v.
  - intros (value & Hres & Ht & Hg). destruct cfg as [v|f]; simpl.
    + subst v. rewrite Ht. simpl. by rewrite Hg.
    + rewrite Hres. simpl. rewrite Ht. simpl. by rewrite Hg.
Qed.

Lemma originHeadersFromReq_falsy req cfg value :
  resolvesTo req cfg value → truthy value = false →
  originHeadersFromReq req cfg = Ok None.
Proof.
  unfold originHeadersFromReq, resolvesTo. fold (reqOriginOf req).
  destruct cfg as [v|f]; simpl.
  - intros -> Ht. by rewrite Ht.
  - intros -> Ht. simpl. by rewrite Ht.
Qed.

(** Merging the allowed headers, when [getAllowedHeaders] returns them. *)
Lemma getAllowedHeaders_ok req (a : option StringOrArray) ah h :
  getAllowedHeaders req a = Ok ah →
  runWrites (mergeWrites ah) h = runWrites (allowedWrites req a) h.
Proof.
  unfold getAllowedHeaders, allowedWrites, allowedValue.
  fold (reflects a). destruct (reflects a); simpl.
  - destruct (Headers.get _ _) as [s|]; simpl.
    + destruct (nonempty s); simpl.
      * destruct (accepted s) eqn:Hacc.
        -- rewrite set_accepted by done. intros [= <-].
           change (mergeWrites _)
             with [WSet "access-control-allow-headers" (normalize s);
                   WAppend "vary" "Access-Control-Request-Headers"].
           simpl. unfold Headers.set. by rewrite normalize_idem.
        -- by rewrite set_rejected.
      * by intros [= <-].
    + by intros [= <-].
  - destruct (joined a) as [s|]; simpl.
    + destruct (nonempty s); simpl.
      * destruct (accepted s) eqn:Hacc.
        -- rewrite set_accepted by done. intros [= <-].
           change (mergeWrites _)
             with [WSet "access-control-allow-headers" (normalize s)].
           simpl. unfold Headers.set. by rewrite normalize_idem.
        -- by rewrite set_rejected.
      * by intros [= <-].
    + by intros [= <-].
Qed.

Lemma getAllowedHeaders_throw req (a : option StringOrArray) e h :
  getAllowedHeaders req a = Throw e →
  e = TypeError ∧ runWrites (allowedWrites req a) h = (Throw TypeError, h).
Proof.
  unfold getAllowedHeaders, allowedWrites, allowedValue.
  fold (reflects a). destruct (reflects a); simpl.
  - destruct (Headers.get _ _) as [s|]; simpl; [|done].
    destruct (nonempty s); simpl; [|done].
    destruct (accepted s) eqn:Hacc.
    + by rewrite set_accepted.
    + rewrite !set_rejected by done. by intros [= <-].
  - destruct (joined a) as [s|]; simpl; [|done].
    destruct (nonempty s); simpl; [|done].
    destruct (accepted s) eqn:Hacc.
    + by rewrite set_accepted.
    + rewrite !set_rejected by done. by intros [= <-].
Qed.

End scratch_facts.

(** ** Running [cors] *)

Section run_facts.
Implicit Types (σ : heap) (h : HeaderMap) (ws : list write).

Lemma bind_ok {A B} (m : M A) (k : A → M B) σ a σ' :
  m σ = (Ok a, σ') → (m ≫= k) σ = k a σ'.
Proof. unfold mbind, M_bind. by intros ->. Qed.

Lemma bind_throw {A B} (m : M A) (k : A → M B) σ e σ' :
  m σ = (Throw e, σ') → (m ≫= k) σ = (Throw e, σ').
Proof. unfold mbind, M_bind. by intros ->. Qed.

Lemma fresh_lookup σ : σ !! fresh (dom σ) = None.
Proof. apply not_elem_of_dom, is_fresh. Qed.

Lemma fresh_ne σ l c : σ !! l = Some c → fresh (dom σ) ≠ l.
Proof. intros Hl Heq. rewrite <- Heq, fresh_lookup in Hl. done. Qed.

Lemma performs_update hl w :
  performs hl (update hl (λ h, perform h w)) [w].
Proof.
  intros σ h Hh. unfold update. rewrite Hh. simpl.
  destruct (perform h w); simpl; [done|]. by rewrite insert_id.
Qed.

Lemma performs_set hl k v : performs hl (headersSet hl k v) [WSet k v].
Proof. apply (performs_update hl (WSet k v)). Qed.

Lemma performs_append hl k v : performs hl (headersAppend hl k v) [WAppend k v].
Proof. apply (performs_update hl (WAppend k v)). Qed.

Lemma performs_ret hl : performs hl (mret ()) [].
Proof. intros σ h Hh. simpl. by rewrite insert_id. Qed.

Lemma performs_seq hl (m n : M unit) ws1 ws2 :
  performs hl m ws1 → performs hl n ws2 → performs hl (m;; n) (ws1 ++ ws2).
Proof.
  intros Hm Hn σ h Hh. rewrite runWrites_app.
  unfold mbind, M_bind. rewrite (Hm σ h Hh).
  destruct (runWrites ws1 h) as [[[]|e] h1]; simpl; [|done].
  rewrite (Hn _ h1) by apply lookup_insert_eq. by rewrite insert_insert_eq.
Qed.

Lemma performs_when hl (b : bool) m ws :
  performs hl m ws → performs hl (when b m) (if b then ws else []).
Proof. destruct b; [done|]. intros _. apply performs_ret. Qed.

Lemma performs_mergeHeaders hl v k :
  performs hl (mergeHeaders hl v k) [mergeWrite (k, v)].
Proof.
  unfold mergeHeaders, mergeWrite. simpl.
  destruct (String.eqb k "vary"); [apply performs_append|apply performs_set].
Qed.

Lemma performs_forEach hl c : performs hl (forEach c (mergeHeaders hl)) (mergeWrites c).
Proof.
  unfold forEach, mergeWrites.
  induction (Headers.entries c) as [|[k v] es IH]; [apply performs_ret|].
  apply (performs_seq hl _ _ [_] _); [apply performs_mergeHeaders|apply IH].
Qed.

Lemma performs_optWrite hl name (value : option string) :
  performs hl
    (match value with Some v => headersSet hl name v | None => mret () end)
    (optWrite name value).
Proof. destruct value; [apply performs_set|apply performs_ret]. Qed.

Lemma finishes_ret {A} hl (fin : M A) : finishes hl fin [] fin.
Proof. intros σ h Hh. simpl. by rewrite insert_id. Qed.

Lemma finishes_seq {A} hl (m : M unit) (k : M A) ws1 ws2 fin :
  performs hl m ws1 → finishes hl k ws2 fin →
  finishes hl (m;; k) (ws1 ++ ws2) fin.
Proof.
  intros Hm Hk σ h Hh. rewrite runWrites_app.
  unfold mbind, M_bind. rewrite (Hm σ h Hh).
  destruct (runWrites ws1 h) as [[[]|e] h1]; simpl; [|done].
  rewrite (Hk _ h1) by apply lookup_insert_eq. by rewrite insert_insert_eq.
Qed.

Lemma finishes_allowed {A} hl req (a : option StringOrArray) (k : M A) ws fin :
  finishes hl k ws fin →
  finishes hl
    (ah ← await (getAllowedHeaders req a); forEach ah (mergeHeaders hl);; k)
    (allowedWrites req a ++ ws) fin.
Proof.
  intros Hk σ h Hh. unfold mbind at 1, M_bind at 1, await.
  destruct (getAllowedHeaders req a) as [ah|e] eqn:Ha.
  - rewrite (finishes_seq hl _ k (mergeWrites ah) ws fin
               (performs_forEach hl ah) Hk σ h Hh).
    by rewrite !runWrites_app, (getAllowedHeaders_ok _ _ _ _ Ha).
  - destruct (getAllowedHeaders_throw _ _ _ h Ha) as [-> Hrun].
    rewrite runWrites_app, Hrun. simpl. by rewrite insert_id.
Qed.

Lemma finishes_ext {A} hl (m : M A) ws ws' fin :
  ws = ws' → finishes hl m ws fin → finishes hl m ws' fin.
Proof. by intros ->. Qed.

Lemma newResponse_run (st : option Number.t) hl σ h :
  σ !! hl = Some (CHeaders h) →
  newResponse st hl σ
  = if Response.inRange (Response.statusOf st) then
      let own := fresh (dom σ) in
      let σ1 := <[own := CHeaders h]> σ in
      let new := fresh (dom σ1) in
      (Ok new,
       <[new := CResponse (Response.mk own (Response.statusOf st) None)]> σ1)
    else (Throw RangeError, σ).
Proof.
  intros Hh. unfold newResponse.
  destruct (Response.inRange _); [|done].
  erewrite bind_ok by (unfold getHeaders; by rewrite Hh).
  erewrite bind_ok by reflexivity. done.
Qed.

(** The writes of a call, as the definition of [cors] makes them. *)
Lemma cors_finishes req res hl opts oh :
  finishes hl
    (forEach oh (mergeHeaders hl);;
     when (default false (read (credentials opts)))
       (headersSet hl "Access-Control-Allow-Credentials" "true");;
     let exposed := joined (read (exposedHeaders opts)) in
     when (present exposed)
       (headersSet hl "Access-Control-Expose-Headers" (default "" exposed));;
     if String.eqb (Request.method req) "OPTIONS" then
       when (truthyList (read (methods opts)))
         (headersSet hl "Access-Control-Allow-Methods"
            (default "" (joined (read (methods opts)))));;
       allowedHeaders ←
         await (getAllowedHeaders req (read (allowedHeaders opts)));
       forEach allowedHeaders (mergeHeaders hl);;
       match read (maxAge opts) with
       | Some n => headersSet hl "Access-Control-Max-Age" (Number.toString n)
       | None => mret ()
       end;;
       if default false (read (preflightContinue opts)) then mret res
       else
         headersSet hl "Content-Length" "0";;
         newResponse (read (optionsSuccessStatus opts)) hl
     else mret res)
    (corsWrites req opts oh)
    (if closes req opts
     then newResponse (read (optionsSuccessStatus opts)) hl
     else mret res).
Proof.
  unfold corsWrites, headerWrites, closes, isPreflight.
  assert (Hexposed :
            performs hl
              (when (present (joined (read (exposedHeaders opts))))
                 (headersSet hl "Access-Control-Expose-Headers"
                    (default "" (joined (read (exposedHeaders opts))))))
              (optWrite "Access-Control-Expose-Headers" (exposedValue opts))).
  { unfold exposedValue.
    destruct (joined (read (exposedHeaders opts))) as [s|]; simpl;
      [|apply performs_ret].
    destruct (nonempty s); [apply performs_set|apply performs_ret]. }
  assert (Hmethods :
            performs hl
              (when (truthyList (read (methods opts)))
                 (headersSet hl "Access-Control-Allow-Methods"
                    (default "" (joined (read (methods opts))))))
              (optWrite "Access-Control-Allow-Methods" (methodsValue opts))).
  { unfold methodsValue.
    destruct (read (methods opts)) as [[s|l]|]; simpl;
      [destruct (nonempty s)|..]; simpl;
      first [apply performs_set|apply performs_ret]. }
  assert (Hage :
            performs hl
              (match read (maxAge opts) with
               | Some n =>
                   headersSet hl "Access-Control-Max-Age" (Number.toString n)
               | None => mret ()
               end)
              (optWrite "Access-Control-Max-Age" (maxAgeValue opts))).
  { unfold maxAgeValue. destruct (read (maxAge opts)); simpl;
      [apply performs_set|apply performs_ret]. }
  destruct (String.eqb (Request.method req) "OPTIONS"); cbv iota; cbn [andb].
  - destruct (default false (read (preflightContinue opts)));
      cbn [negb]; cbv iota.
    + eapply finishes_ext;
        [|apply finishes_seq; [apply performs_forEach|];
          apply finishes_seq; [apply performs_when, performs_set|];
          apply finishes_seq; [exact Hexposed|];
          apply finishes_seq; [exact Hmethods|];
          apply finishes_allowed;
          apply finishes_seq; [exact Hage|]; apply finishes_ret].
      unfold commonWrites, preflightWrites.
      by rewrite <- ?app_assoc, ?app_nil_r.
    + eapply finishes_ext;
        [|apply finishes_seq; [apply performs_forEach|];
          apply finishes_seq; [apply performs_when, performs_set|];
          apply finishes_seq; [exact Hexposed|];
          apply finishes_seq; [exact Hmethods|];
          apply finishes_allowed;
          apply finishes_seq; [exact Hage|];
          apply finishes_seq; [apply performs_set|apply finishes_ret]].
      unfold commonWrites, preflightWrites.
      by rewrite <- ?app_assoc, ?app_nil_r.
  - eapply finishes_ext;
      [|apply finishes_seq; [apply performs_forEach|];
        apply finishes_seq; [apply performs_when, performs_set|];
        apply finishes_seq; [exact Hexposed|]; apply finishes_ret].
    unfold commonWrites. by rewrite <- ?app_assoc, ?app_nil_r.
Qed.

(** [cors] on a store where the response and the options are in place. *)
Lemma cors_run req res options σ r h o :
  optionsAt σ options o →
  σ !! res = Some (CResponse r) →
  σ !! Response.headers r = Some (CHeaders h) →
  cors req res options σ = corsOutcome req res r h o σ.
Proof.
  intros Ho Hr Hh. unfold cors, corsOutcome.
  assert (Hgiven : (match options with
                    | Some l => getObject l
                    | None => mret noOptions
                    end) σ = (Ok o, σ)).
  { destruct options as [l|]; simpl in Ho.
    - unfold getObject. by rewrite Ho.
    - by subst o. }
  erewrite bind_ok by exact Hgiven.
  erewrite bind_ok by reflexivity.
  set (opts := spread defaultOptions o).
  set (σ1 := <[fresh (dom σ) := CObject opts]> σ).
  assert (Hr1 : σ1 !! res = Some (CResponse r)).
  { unfold σ1. by rewrite lookup_insert_ne by (by eapply fresh_ne). }
  assert (Hh1 : σ1 !! Response.headers r = Some (CHeaders h)).
  { unfold σ1. by rewrite lookup_insert_ne by (by eapply fresh_ne). }
  assert (Hw1 : σ1 !! fresh (dom σ) = Some (CObject opts))
    by apply lookup_insert_eq.
  erewrite bind_ok by (unfold getObject; by rewrite Hw1).
  erewrite bind_ok by (unfold getResponse; by rewrite Hr1).
  destruct (originHeadersFromReq req (originOr opts)) as [[oh|]|e] eqn:Horigin;
    [erewrite bind_ok by reflexivity..
    |by erewrite bind_throw by reflexivity]; [|done].
  etrans; [exact (cors_finishes req res (Response.headers r) opts oh σ1 h Hh1)|].
  destruct (runWrites (corsWrites req opts oh) h).1; [|done].
  by destruct (closes req opts).
Qed.

(** What a call leaves in the store once origin headers exist. *)
Lemma cors_final req res options σ r h o oh :
  optionsAt σ options o →
  σ !! res = Some (CResponse r) →
  σ !! Response.headers r = Some (CHeaders h) →
  originHeadersFromReq req (originOr (spread defaultOptions o)) = Ok (Some oh) →
  (cors req res options σ).2 !! res = Some (CResponse r)
  ∧ (cors req res options σ).2 !! Response.headers r
    = Some (CHeaders (finalHeaders req (spread defaultOptions o) oh h)).
Proof.
  intros Ho Hr Hh Horigin.
  rewrite (cors_run _ _ _ _ _ _ _ Ho Hr Hh). unfold corsOutcome.
  rewrite Horigin. cbv zeta. fold (finalHeaders req (spread defaultOptions o) oh h).
  set (opts := spread defaultOptions o).
  set (σ1 := <[fresh (dom σ) := CObject opts]> σ).
  set (σ2 := <[Response.headers r := CHeaders (finalHeaders req opts oh h)]> σ1).
  assert (Hne : res ≠ Response.headers r) by congruence.
  assert (Hr2 : σ2 !! res = Some (CResponse r)).
  { unfold σ2, σ1. rewrite lookup_insert_ne by done.
    by rewrite lookup_insert_ne by (by eapply fresh_ne). }
  assert (Hh2 : σ2 !! Response.headers r
                = Some (CHeaders (finalHeaders req opts oh h)))
    by apply lookup_insert_eq.
  destruct (runWrites (corsWrites req opts oh) h).1; [|done].
  destruct (closes req opts); [|done].
  rewrite (newResponse_run _ _ _ _ Hh2).
  destruct (Response.inRange _); [|done]. cbv zeta. simpl.
  split.
  - rewrite lookup_insert_ne by (by eapply fresh_ne; rewrite lookup_insert_ne by (by eapply fresh_ne)).
    by rewrite lookup_insert_ne by (by eapply fresh_ne).
  - rewrite lookup_insert_ne by (by eapply fresh_ne; rewrite lookup_insert_ne by (by eapply fresh_ne)).
    by rewrite lookup_insert_ne by (by eapply fresh_ne).
Qed.

End run_facts.

(** ** Values the platform accepts *)

Section acceptance_facts.
Implicit Types (σ : heap) (h oh : HeaderMap) (ws : list write) (k : string).

Lemma forallb_optWrite name (v : option string) :
  forallb acceptedW (optWrite name v) = acceptedIf v.
Proof. destruct v; simpl; [apply andb_true_r|done]. Qed.

Lemma accepted_allowedWrites req (a : option StringOrArray) :
  forallb acceptedW (allowedWrites req a) = acceptedIf (allowedValue req a).
Proof.
  unfold allowedWrites. rewrite forallb_app, forallb_optWrite.
  destruct (reflects a); simpl; by rewrite andb_true_r.
Qed.

Lemma accepted_commonWrites opts :
  forallb acceptedW (commonWrites opts) = acceptedIf (exposedValue opts).
Proof.
  unfold commonWrites. rewrite forallb_app, forallb_optWrite.
  by destruct (default false (read (credentials opts))).
Qed.

Lemma accepted_preflightWrites req opts :
  forallb acceptedW (preflightWrites req opts)
  = acceptedIf (methodsValue opts)
    && acceptedIf (allowedValue req (read (allowedHeaders opts)))
    && acceptedIf (maxAgeValue opts).
Proof.
  unfold preflightWrites.
  rewrite !forallb_app, !forallb_optWrite, accepted_allowedWrites.
  by rewrite andb_assoc.
Qed.

(** Once the origin headers exist, the writes of a call all go through
    exactly when the platform accepts the values the options supply. *)
Lemma accepted_corsWrites req opts ro value oh :
  getOriginHeaders ro value = Ok oh →
  forallb acceptedW (headerWrites req opts oh) = headersAccepted req opts
  ∧ forallb acceptedW (corsWrites req opts oh) = headersAccepted req opts.
Proof.
  intros [Hmerge Hacc]%getOriginHeaders_ok.
  assert (Hhead : forallb acceptedW (headerWrites req opts oh)
                  = headersAccepted req opts).
  { unfold headerWrites, headersAccepted.
    rewrite !forallb_app, Hmerge, Hacc, accepted_commonWrites. simpl.
    destruct (isPreflight req); [|done]. by rewrite accepted_preflightWrites. }
  split; [done|]. unfold corsWrites. rewrite forallb_app, Hhead.
  destruct (closes req opts); simpl; by rewrite andb_true_r.
Qed.

Lemma finalHeaders_accumulated req opts oh h :
  finalHeaders req opts oh h
  = if closes req opts && forallb acceptedW (headerWrites req opts oh)
    then <["content-length" := ["0"]]> (accumulated req opts oh h)
    else accumulated req opts oh h.
Proof.
  unfold finalHeaders, accumulated, corsWrites. rewrite runWrites_app.
  rewrite runWrites_outcome.
  destruct (forallb acceptedW (headerWrites req opts oh));
    [|by rewrite andb_false_r].
  rewrite andb_true_r. by destruct (closes req opts).
Qed.

End acceptance_facts.

(** ** What a call keeps *)

Section keeping_facts.
Implicit Types (σ : heap) (l : loc).

Lemma keeps_refl σ : keeps σ σ.
Proof. by intros l c Hl _. Qed.

Lemma keeps_trans σ1 σ2 σ3 : keeps σ1 σ2 → keeps σ2 σ3 → keeps σ1 σ3.
Proof. intros H12 H23 l c Hl Hc. apply H23; [by apply H12|done]. Qed.

Lemma keeps_insert_fresh σ c : keeps σ (<[fresh (dom σ) := c]> σ).
Proof.
  intros l c' Hl _. by rewrite lookup_insert_ne by (by eapply fresh_ne).
Qed.

Lemma keeps_insert_headers σ l h h' :
  σ !! l = Some (CHeaders h) → keeps σ (<[l := CHeaders h']> σ).
Proof.
  intros Hh l' c Hl Hc. destruct (decide (l' = l)) as [->|Hne].
  - rewrite Hh in Hl. injection Hl as <-. by destruct (Hc h).
  - by rewrite lookup_insert_ne.
Qed.

Lemma keeping_ret {A} (a : A) : keeping (mret a).
Proof. intros σ. apply keeps_refl. Qed.

Lemma keeping_await {A} (r : result A) : keeping (await r).
Proof. intros σ. apply keeps_refl. Qed.

Lemma keeping_bind {A B} (m : M A) (k : A → M B) :
  keeping m → (∀ a, keeping (k a)) → keeping (m ≫= k).
Proof.
  intros Hm Hk σ. unfold mbind, M_bind. specialize (Hm σ).
  destruct (m σ) as [[a|e] σ']; simpl in *; [|done].
  eapply keeps_trans; [exact Hm|apply Hk].
Qed.

Lemma keeping_alloc c : keeping (alloc c).
Proof. intros σ. apply keeps_insert_fresh. Qed.

Lemma keeping_getObject l : keeping (getObject l).
Proof.
  intros σ. unfold getObject. destruct (σ !! l) as [[]|]; apply keeps_refl.
Qed.

Lemma keeping_getResponse l : keeping (getResponse l).
Proof.
  intros σ. unfold getResponse. destruct (σ !! l) as [[]|]; apply keeps_refl.
Qed.

Lemma keeping_getHeaders l : keeping (getHeaders l).
Proof.
  intros σ. unfold getHeaders. destruct (σ !! l) as [[]|]; apply keeps_refl.
Qed.

Lemma keeping_update l f : keeping (update l f).
Proof.
  intros σ. unfold update.
  destruct (σ !! l) as [[h| |]|] eqn:Hl; try apply keeps_refl.
  destruct (f h); [|apply keeps_refl]. by eapply keeps_insert_headers.
Qed.

Lemma keeping_headersSet l k v : keeping (headersSet l k v).
Proof. apply keeping_update. Qed.

Lemma keeping_headersAppend l k v : keeping (headersAppend l k v).
Proof. apply keeping_update. Qed.

Lemma keeping_when b m : keeping m → keeping (when b m).
Proof. destruct b; [done|]. intros _. apply keeping_ret. Qed.

Lemma keeping_mergeHeaders l v k : keeping (mergeHeaders l v k).
Proof.
  unfold mergeHeaders.
  destruct (String.eqb k "vary"); [apply keeping_headersAppend|apply keeping_headersSet].
Qed.

Lemma keeping_forEach c (f : string → string → M unit) :
  (∀ v k, keeping (f v k)) → keeping (forEach c f).
Proof.
  intros Hf. unfold forEach.
  induction (Headers.entries c) as [|kv es IH]; [apply keeping_ret|].
  simpl. apply keeping_bind; [apply Hf|]. intros _. apply IH.
Qed.

Lemma keeping_throw {A} e : keeping (λ σ, (@Throw A e, σ)).
Proof. intros σ. apply keeps_refl. Qed.

Lemma keeping_newResponse st l : keeping (newResponse st l).
Proof.
  unfold newResponse. destruct (Response.inRange _); [|apply keeping_throw].
  apply keeping_bind; [apply keeping_getHeaders|]. intros h.
  apply keeping_bind; [apply keeping_alloc|]. intros own.
  apply keeping_alloc.
Qed.

End keeping_facts.

Create HintDb keeping.

#[export] Hint Resolve keeping_ret keeping_await keeping_alloc keeping_getObject
  keeping_getResponse keeping_getHeaders keeping_headersSet keeping_headersAppend
  keeping_mergeHeaders keeping_newResponse : keeping.

Ltac keeping_steps :=
  repeat first
    [ progress auto with keeping
    | apply keeping_bind; [|intros ?]
    | apply keeping_when
    | apply keeping_forEach; intros ? ?
    | match goal with |- keeping (match ?x with _ => _ end) => destruct x end
    | match goal with |- keeping (if ?b then _ else _) => destruct b end ].

Section framing_facts.
Implicit Types (σ : heap) (l hl : loc).

Lemma framed_refl hl σ : framed hl σ σ.
Proof. by intros l _ _. Qed.

Lemma framed_trans hl σ1 σ2 σ3 :
  framed hl σ1 σ2 → framed hl σ2 σ3 → framed hl σ1 σ3.
Proof.
  intros H12 H23 l Hl Hne. rewrite <- (H12 l Hl Hne).
  apply H23; [|done]. by rewrite (H12 l Hl Hne).
Qed.

Lemma framed_insert_fresh hl σ c : framed hl σ (<[fresh (dom σ) := c]> σ).
Proof.
  intros l [c' Hl] _. by rewrite lookup_insert_ne by (by eapply fresh_ne).
Qed.

Lemma framed_insert hl σ c : framed hl σ (<[hl := c]> σ).
Proof. intros l _ Hne. by rewrite lookup_insert_ne. Qed.

Lemma framing_ret {A} hl (a : A) : framing hl (mret a).
Proof. intros σ. apply framed_refl. Qed.

Lemma framing_await {A} hl (r : result A) : framing hl (await r).
Proof. intros σ. apply framed_refl. Qed.

Lemma framing_bind {A B} hl (m : M A) (k : A → M B) :
  framing hl m → (∀ a, framing hl (k a)) → framing hl (m ≫= k).
Proof.
  intros Hm Hk σ. unfold mbind, M_bind. specialize (Hm σ).
  destruct (m σ) as [[a|e] σ']; simpl in *; [|done].
  eapply framed_trans; [exact Hm|apply Hk].
Qed.

Lemma framing_alloc hl c : framing hl (alloc c).
Proof. intros σ. apply framed_insert_fresh. Qed.

Lemma framing_getHeaders hl l : framing hl (getHeaders l).
Proof.
  intros σ. unfold getHeaders. destruct (σ !! l) as [[]|]; apply framed_refl.
Qed.

Lemma framing_update hl f : framing hl (update hl f).
Proof.
  intros σ. unfold update.
  destruct (σ !! hl) as [[h| |]|]; try apply framed_refl.
  destruct (f h); [apply framed_insert|apply framed_refl].
Qed.

Lemma framing_headersSet hl k v : framing hl (headersSet hl k v).
Proof. apply framing_update. Qed.

Lemma framing_headersAppend hl k v : framing hl (headersAppend hl k v).
Proof. apply framing_update. Qed.

Lemma framing_when hl b m : framing hl m → framing hl (when b m).
Proof. destruct b; [done|]. intros _. apply framing_ret. Qed.

Lemma framing_mergeHeaders hl v k : framing hl (mergeHeaders hl v k).
Proof.
  unfold mergeHeaders.
  destruct (String.eqb k "vary"); [apply framing_headersAppend|apply framing_headersSet].
Qed.

Lemma framing_forEach hl c (f : string → string → M unit) :
  (∀ v k, framing hl (f v k)) → framing hl (forEach c f).
Proof.
  intros Hf. unfold forEach.
  induction (Headers.entries c) as [|kv es IH]; [apply framing_ret|].
  simpl. apply framing_bind; [apply Hf|]. intros _. apply IH.
Qed.

Lemma framing_throw {A} hl e : framing hl (λ σ, (@Throw A e, σ)).
Proof. intros σ. apply framed_refl. Qed.

Lemma framing_newResponse hl st l : framing hl (newResponse st l).
Proof.
  unfold newResponse. destruct (Response.inRange _); [|apply framing_throw].
  apply framing_bind; [apply framing_getHeaders|]. intros h.
  apply framing_bind; [apply framing_alloc|]. intros own.
  apply framing_alloc.
Qed.

End framing_facts.

Create HintDb framing.

#[export] Hint Resolve framing_ret framing_await framing_alloc framing_getHeaders
  framing_headersSet framing_headersAppend framing_mergeHeaders
  framing_newResponse : framing.

Ltac framing_steps :=
  repeat first
    [ progress auto with framing
    | apply framing_bind; [|intros ?]
    | apply framing_when
    | apply framing_forEach; intros ? ?
    | match goal with |- framing _ (match ?x with _ => _ end) => destruct x end
    | match goal with |- framing _ (if ?b then _ else _) => destruct b end ].

(** ** The writes of a call, name by name *)

Lemma elem_of_names (k : string) (names : list string) :
  bool_decide (k ∈ names) = true → k ∈ names.
Proof. apply bool_decide_eq_true_1. Qed.

Ltac names_in := apply elem_of_names; reflexivity.

Section name_facts.
Implicit Types (σ : heap) (h oh : HeaderMap) (ws : list write) (k : string).

Lemma corsWrites_later req opts ro value oh :
  getOriginHeaders ro value = Ok oh →
  corsWrites req opts oh = originWrites ro value ++ laterWrites req opts.
Proof.
  intros [Hmerge _]%getOriginHeaders_ok.
  unfold corsWrites, headerWrites, laterWrites.
  by rewrite Hmerge, <- !app_assoc.
Qed.

Lemma finalHeaders_lookup req opts oh h k :
  finalHeaders req opts oh h !! k
  = after (validPrefix (corsWrites req opts oh)) k (h !! k).
Proof. apply runWrites_lookup. Qed.

(** Once the origin headers exist: first their writes, then as many of the
    later ones as go through. *)
Lemma finalHeaders_later req opts ro value oh h k :
  getOriginHeaders ro value = Ok oh →
  finalHeaders req opts oh h !! k
  = after (validPrefix (laterWrites req opts)) k
      (after (originWrites ro value) k (h !! k)).
Proof.
  intros Hoh. rewrite finalHeaders_lookup, (corsWrites_later _ _ _ _ _ Hoh).
  apply getOriginHeaders_ok in Hoh as [_ Hacc].
  by rewrite validPrefix_app, Hacc, after_app.
Qed.

Lemma within_app names ws1 ws2 :
  within names ws1 → within names ws2 → within names (ws1 ++ ws2).
Proof.
  intros H1 H2 k. rewrite touches_app. intros [?|?]%orb_prop; eauto.
Qed.

Lemma within_nil names : within names [].
Proof. by intros k. Qed.

Lemma within_set names name (v : string) :
  lower name ∈ names → within names [WSet name v].
Proof.
  intros Hin k. unfold touches. simpl. rewrite orb_false_r.
  by intros <-%String.eqb_eq.
Qed.

Lemma within_append names name (v : string) :
  lower name ∈ names → within names [WAppend name v].
Proof.
  intros Hin k. unfold touches. simpl. rewrite orb_false_r.
  by intros <-%String.eqb_eq.
Qed.

Lemma within_optWrite names name (v : option string) :
  lower name ∈ names → within names (optWrite name v).
Proof. destruct v; [apply within_set|intros _; apply within_nil]. Qed.

Lemma within_if names (b : bool) ws1 ws2 :
  within names ws1 → within names ws2 → within names (if b then ws1 else ws2).
Proof. by destruct b. Qed.

Lemma within_validPrefix names ws : within names ws → within names (validPrefix ws).
Proof.
  intros Hws k Hk. apply Hws. destruct (touches k ws) eqn:Ht; [done|].
  by rewrite touches_validPrefix in Hk.
Qed.

Lemma within_untouched names ws k : within names ws → k ∉ names → touches k ws = false.
Proof.
  intros Hws Hk. destruct (touches k ws) eqn:Ht; [|done].
  destruct Hk. by apply Hws.
Qed.

Lemma within_weaken names names' ws :
  names ⊆ names' → within names ws → within names' ws.
Proof. intros Hsub Hws k Hk. by apply Hsub, Hws. Qed.

Lemma within_originWrites ro value :
  within ["access-control-allow-origin"; "vary"] (originWrites ro value).
Proof.
  unfold originWrites.
  destruct (isWildcard value); [apply within_set; names_in|].
  assert (Hother :
    within ["access-control-allow-origin"; "vary"]
      ((if isOriginAllowed (default "" ro) value && present ro
        then [WSet "access-control-allow-origin"
                (normalize (default "" ro))]
        else []) ++ [WAppend "vary" "Origin"])).
  { apply within_app.
    - apply within_if; [apply within_set; names_in|apply within_nil].
    - apply within_append; names_in. }
  destruct value; try exact Hother.
  apply (within_app _ [_] [_]); [apply within_set|apply within_append]; names_in.
Qed.

Lemma within_commonWrites opts :
  within ["access-control-allow-credentials"; "access-control-expose-headers"]
    (commonWrites opts).
Proof.
  unfold commonWrites. apply within_app.
  - apply within_if; [apply within_set; names_in|apply within_nil].
  - apply within_optWrite; names_in.
Qed.

Lemma within_preflightWrites req opts :
  within ["access-control-allow-methods"; "access-control-allow-headers";
          "vary"; "access-control-max-age"]
    (preflightWrites req opts).
Proof.
  unfold preflightWrites, allowedWrites.
  repeat apply within_app; try (apply within_optWrite; names_in).
  apply within_if; [apply within_append; names_in|apply within_nil].
Qed.

Lemma within_laterWrites req opts :
  within ["access-control-allow-credentials"; "access-control-expose-headers";
          "access-control-allow-methods"; "access-control-allow-headers";
          "vary"; "access-control-max-age"; "content-length"]
    (laterWrites req opts).
Proof.
  unfold laterWrites. apply within_app; [|apply within_app].
  - eapply within_weaken; [|apply within_commonWrites].
    intros k Hk. apply elem_of_names.
    repeat (apply elem_of_cons in Hk as [->|Hk]; [done|]).
    by apply elem_of_nil in Hk.
  - apply within_if; [|apply within_nil].
    eapply within_weaken; [|apply within_preflightWrites].
    intros k Hk. apply elem_of_names.
    repeat (apply elem_of_cons in Hk as [->|Hk]; [done|]).
    by apply elem_of_nil in Hk.
  - apply within_if; [apply within_set; names_in|apply within_nil].
Qed.

(** No write of a call sets Vary. *)
Lemma sets_vary_origin ro value : sets "vary" (originWrites ro value) = false.
Proof.
  unfold originWrites. destruct (isWildcard value); [done|].
  destruct value; try done;
    by destruct (isOriginAllowed _ _ && present ro).
Qed.

Lemma sets_optWrite k name (v : option string) :
  String.eqb (lower name) k = false → sets k (optWrite name v) = false.
Proof. intros Hne. destruct v; simpl; by rewrite ?Hne. Qed.

Lemma sets_vary_later req opts : sets "vary" (laterWrites req opts) = false.
Proof.
  unfold laterWrites, commonWrites, preflightWrites, allowedWrites.
  rewrite !sets_app, !sets_optWrite by done.
  destruct (default false (read (credentials opts))), (isPreflight req),
    (closes req opts); simpl;
    rewrite ?sets_app, ?sets_optWrite by done; try done;
    by destruct (reflects _).
Qed.

End name_facts.

(** ** The collection after a call, header by header *)

Section untouched_facts.
Implicit Types (ws : list write) (k : string).

Lemma touches_nil k : touches k [] = false.
Proof. done. Qed.

Lemma commonWrites_untouched opts k :
  k ≠ "access-control-allow-credentials" →
  k ≠ "access-control-expose-headers" →
  touches k (commonWrites opts) = false.
Proof.
  intros H1 H2. apply (within_untouched _ _ _ (within_commonWrites opts)).
  rewrite !not_elem_of_cons. repeat split; try done. apply not_elem_of_nil.
Qed.

Lemma optWrite_untouched name (v : option string) k :
  lower name ≠ k → touches k (optWrite name v) = false.
Proof.
  intros Hne. destruct v; [|done]. unfold touches. simpl.
  rewrite orb_false_r. by apply String.eqb_neq.
Qed.

Lemma vary_untouched (b : bool) k :
  k ≠ "vary" →
  touches k (if b then [WAppend "Vary" "Access-Control-Request-Headers"]
             else []) = false.
Proof.
  intros Hne. apply (within_untouched ["vary"]).
  - apply within_if; [apply within_append; names_in|apply within_nil].
  - rewrite not_elem_of_cons. split; [done|apply not_elem_of_nil].
Qed.

Lemma closing_untouched (b : bool) k :
  k ≠ "content-length" →
  touches k (if b then [WSet "Content-Length" "0"] else []) = false.
Proof.
  intros Hne. apply (within_untouched ["content-length"]).
  - apply within_if; [apply within_set; names_in|apply within_nil].
  - rewrite not_elem_of_cons. split; [done|apply not_elem_of_nil].
Qed.

End untouched_facts.

Ltac untouched :=
  repeat rewrite touches_app;
  rewrite ?commonWrites_untouched, ?optWrite_untouched, ?vary_untouched,
    ?closing_untouched, ?touches_nil by done;
  reflexivity.

Section final_headers.
Implicit Types (σ : heap) (h oh : HeaderMap) (ws : list write) (k : string).
Implicit Types (cur : option (list string)).

Lemma after_never_written ws k cur :
  touches k ws = false → after (validPrefix ws) k cur = cur.
Proof. intros Hk. by apply after_untouched, touches_validPrefix. Qed.

(** A name that only the writes [W] in the middle are filed under. *)
Lemma after_segment A W B k cur :
  touches k A = false → touches k B = false →
  after (validPrefix (A ++ W ++ B)) k cur
  = if forallb acceptedW A then after (validPrefix W) k cur else cur.
Proof.
  intros HA HB. rewrite validPrefix_app.
  destruct (forallb acceptedW A); [|by apply after_never_written].
  rewrite after_app, (after_untouched A) by done.
  rewrite validPrefix_app. destruct (forallb acceptedW W) eqn:HW; [|done].
  rewrite after_app, (after_never_written B) by done.
  by rewrite validPrefix_accepted.
Qed.

Lemma after_optWrite name (v : option string) k cur :
  lower name = k →
  after (validPrefix (optWrite name v)) k cur
  = match v with
    | Some s => if accepted s then Some [normalize s] else cur
    | None => cur
    end.
Proof.
  intros <-. destruct v as [s|]; [|done]. simpl.
  destruct (accepted s); [|done]. simpl. by rewrite String.eqb_refl.
Qed.

Lemma laterWrites_preflight req opts :
  isPreflight req = true →
  laterWrites req opts
  = commonWrites opts
    ++ optWrite "Access-Control-Allow-Methods" (methodsValue opts)
    ++ optWrite "Access-Control-Allow-Headers"
         (allowedValue req (read (allowedHeaders opts)))
    ++ (if reflects (read (allowedHeaders opts))
        then [WAppend "Vary" "Access-Control-Request-Headers"] else [])
    ++ optWrite "Access-Control-Max-Age" (maxAgeValue opts)
    ++ (if closes req opts then [WSet "Content-Length" "0"] else []).
Proof.
  intros Hp. unfold laterWrites, preflightWrites, allowedWrites.
  rewrite Hp. by rewrite <- !app_assoc.
Qed.

Lemma laterWrites_other req opts :
  isPreflight req = false → laterWrites req opts = commonWrites opts.
Proof.
  intros Hp. unfold laterWrites, closes. rewrite Hp. simpl.
  by rewrite app_nil_r.
Qed.

(** Access-Control-Allow-Credentials *)
Lemma later_credentials req opts cur :
  after (validPrefix (laterWrites req opts)) "access-control-allow-credentials" cur
  = if default false (read (credentials opts)) then Some ["true"] else cur.
Proof.
  unfold laterWrites, commonWrites. rewrite <- !app_assoc.
  etrans;
    [apply (after_segment []
              (if default false (read (credentials opts))
               then [WSet "Access-Control-Allow-Credentials" "true"] else []));
     [done|]
    |by destruct (default false (read (credentials opts)))].
  destruct (isPreflight req); [unfold preflightWrites, allowedWrites|];
    untouched.
Qed.



(** Access-Control-Allow-Headers *)
Lemma later_allowed req opts cur :
  after (validPrefix (laterWrites req opts)) "access-control-allow-headers" cur
  = if isPreflight req && acceptedIf (exposedValue opts)
       && acceptedIf (methodsValue opts) then
      match allowedValue req (read (allowedHeaders opts)) with
      | Some s => if accepted s then Some [normalize s] else cur
      | None => cur
      end
    else cur.
Proof.
  destruct (isPreflight req) eqn:Hp.
  - rewrite laterWrites_preflight by done.
    rewrite (app_assoc (commonWrites opts)).
    rewrite (after_segment _ (optWrite "Access-Control-Allow-Headers" _));
      [| |]; [|untouched..].
    by rewrite forallb_app, accepted_commonWrites, forallb_optWrite,
      after_optWrite.
  - rewrite laterWrites_other by done.
    by rewrite after_never_written by (by apply commonWrites_untouched).
Qed.

(** Access-Control-Max-Age *)
Lemma later_maxAge req opts cur :
  after (validPrefix (laterWrites req opts)) "access-control-max-age" cur
  = if isPreflight req && acceptedIf (exposedValue opts)
       && acceptedIf (methodsValue opts)
       && acceptedIf (allowedValue req (read (allowedHeaders opts))) then
      match maxAgeValue opts with
      | Some s => if accepted s then Some [normalize s] else cur
      | None => cur
      end
    else cur.
Proof.
  destruct (isPreflight req) eqn:Hp.
  - rewrite laterWrites_preflight by done.
    rewrite (app_assoc (commonWrites opts)), (app_assoc (_ ++ _)),
      (app_assoc (_ ++ _)).
    rewrite (after_segment _ (optWrite "Access-Control-Max-Age" _));
      [| |]; [|untouched..].
    rewrite !forallb_app, accepted_commonWrites, !forallb_optWrite,
      after_optWrite by done.
    simpl. by destruct (reflects _); rewrite ?andb_true_r.
  - rewrite laterWrites_other by done.
    by rewrite after_never_written by (by apply commonWrites_untouched).
Qed.

(** Vary *)
Lemma later_vary req opts cur :
  after (validPrefix (laterWrites req opts)) "vary" cur
  = if isPreflight req && reflects (read (allowedHeaders opts))
       && acceptedIf (exposedValue opts) && acceptedIf (methodsValue opts)
       && acceptedIf (allowedValue req (read (allowedHeaders opts)))
    then Some (default [] cur ++ ["Access-Control-Request-Headers"])
    else cur.
Proof.
  destruct (isPreflight req) eqn:Hp.
  - rewrite laterWrites_preflight by done.
    rewrite (app_assoc (commonWrites opts)), (app_assoc (_ ++ _)).
    rewrite (after_segment _
               (if reflects (read (allowedHeaders opts))
                then [WAppend "Vary" "Access-Control-Request-Headers"]
                else []));
      [| |]; [|untouched..].
    rewrite !forallb_app, accepted_commonWrites, !forallb_optWrite.
    simpl. destruct (reflects _); simpl; [done|]. by destruct (_ && _).
  - rewrite laterWrites_other by done.
    by rewrite after_never_written by (by apply commonWrites_untouched).
Qed.

(** Content-Length *)
Lemma later_contentLength req opts cur :
  after (validPrefix (laterWrites req opts)) "content-length" cur
  = if closes req opts && headersAccepted req opts then Some ["0"] else cur.
Proof.
  unfold headersAccepted. destruct (isPreflight req) eqn:Hp.
  - rewrite laterWrites_preflight by done.
    rewrite (app_assoc (commonWrites opts)), (app_assoc (_ ++ _)),
      (app_assoc (_ ++ _)), (app_assoc (_ ++ _)).
    rewrite <- (app_nil_r (if closes req opts then _ else _)).
    rewrite (after_segment _
               (if closes req opts then [WSet "Content-Length" "0"] else []));
      [| |done]; [|untouched].
    rewrite !forallb_app, accepted_commonWrites, !forallb_optWrite.
    simpl. destruct (closes req opts); simpl;
      [|by destruct (_ && _)].
    destruct (reflects _); simpl; by rewrite ?andb_true_r, ?andb_assoc.
  - rewrite laterWrites_other by done. unfold closes. rewrite Hp. simpl.
    by rewrite after_never_written by (by apply commonWrites_untouched).
Qed.

(** Every other name *)
Lemma later_other req opts k cur :
  k ∉ ["access-control-allow-credentials"; "access-control-expose-headers";
       "access-control-allow-methods"; "access-control-allow-headers";
       "vary"; "access-control-max-age"; "content-length"] →
  after (validPrefix (laterWrites req opts)) k cur = cur.
Proof.
  intros Hk. apply after_never_written.
  by apply (within_untouched _ _ _ (within_laterWrites req opts)).
Qed.

(** The origin headers, merged *)
Lemma origin_allowOrigin ro value cur :
  after (originWrites ro value) "access-control-allow-origin" cur
  = match value with
    | OStr s => Some [normalize s]
    | _ =>
        if isOriginAllowed (default "" ro) value && present ro
        then Some [normalize (default "" ro)] else cur
    end.
Proof.
  unfold originWrites. destruct (isWildcard value) eqn:Hw.
  { apply isWildcard_true in Hw as ->. done. }
  destruct value; try done; simpl; rewrite ?normalize_idem; try done;
    destruct (_ && present ro); simpl; by rewrite ?normalize_idem.
Qed.

Lemma origin_vary ro value cur :
  after (originWrites ro value) "vary" cur
  = if isWildcard value then cur else Some (default [] cur ++ ["Origin"]).
Proof.
  unfold originWrites. destruct (isWildcard value) eqn:Hw; [done|].
  destruct value; try done; simpl;
    destruct (_ && present ro); simpl; done.
Qed.

Lemma origin_other ro value k cur :
  k ≠ "access-control-allow-origin" → k ≠ "vary" →
  after (originWrites ro value) k cur = cur.
Proof.
  intros H1 H2. apply after_untouched.
  apply (within_untouched _ _ _ (within_originWrites ro value)).
  rewrite !not_elem_of_cons. repeat split; try done. apply not_elem_of_nil.
Qed.

End final_headers.

(** ** Origin matching *)

Section origin_matching.
Implicit Types (origin s : string) (l : list StaticOrigin) (v a : StaticOrigin).

Lemma isOriginAllowed_array origin l :
  isOriginAllowed origin (OArr l) = true
  ↔ ∃ a, a ∈ l ∧ isOriginAllowed origin a = true.
Proof.
  simpl. rewrite existsb_exists.
  split; intros (a & Hin & Ha); exists a; split; try done;
    by apply list_elem_of_In.
Qed.

(** C5: isOriginAllowed returns, for a list, true exactly when some
    element matches recursively; for a string, true exactly when it is
    equal to the request origin, character for character, so that a
    difference of case alone is a mismatch; for a regular
    expression, the result of testing the pattern against the request
    origin; for a boolean, the boolean itself. *)
Theorem isOriginAllowed_cases origin :
  (∀ l, isOriginAllowed origin (OArr l) = true
        ↔ ∃ a, a ∈ l ∧ isOriginAllowed origin a = true)
  ∧ (∀ s, isOriginAllowed origin (OStr s) = true ↔ origin = s)
  ∧ isOriginAllowed "https://Vercel.com" (OStr "https://vercel.com") = false
  ∧ (∀ r, isOriginAllowed origin (ORegExp r) = test r origin)
  ∧ (∀ b, isOriginAllowed origin (OBool b) = b).
Proof.
  split; [apply isOriginAllowed_array|].
  split; [intros s; apply String.eqb_eq|]. by repeat split.
Qed.

(** What [getOriginHeaders] returns for a value that is not a string. *)
Lemma getOriginHeaders_other (ro : option string) v :
  (∀ s, v ≠ OStr s) →
  getOriginHeaders ro v
  = if isOriginAllowed (default "" ro) v && present ro then
      if accepted (default "" ro)
      then Ok {["access-control-allow-origin" := [normalize (default "" ro)];
                "vary" := ["Origin"]]}
      else Throw TypeError
    else Ok {["vary" := ["Origin"]]}.
Proof.
  intros Hv. unfold getOriginHeaders.
  assert (Hw : isWildcard v = false) by (apply isWildcard_false, Hv).
  rewrite Hw.
  assert (Hgoal :
    (headers ←
       (if isOriginAllowed (default "" ro) v && present ro
        then Headers.set Headers.new "Access-Control-Allow-Origin" (default "" ro)
        else Ok Headers.new);
     Headers.append headers "Vary" "Origin")
    = if isOriginAllowed (default "" ro) v && present ro then
        if accepted (default "" ro)
        then Ok {["access-control-allow-origin" := [normalize (default "" ro)];
                  "vary" := ["Origin"]]}
        else Throw TypeError
      else Ok {["vary" := ["Origin"]]}).
  { destruct (isOriginAllowed (default "" ro) v && present ro); [|done].
    destruct (accepted (default "" ro)) eqn:Hacc.
    - by rewrite set_accepted by done.
    - by rewrite set_rejected. }
  destruct v; try exact Hgoal. by destruct (Hv s).
Qed.

(** C9: the string "*" inside a list is an ordinary element.  A list is
    never handled by the wildcard branch: the origin headers it gives,
    which it gives whenever the platform accepts the request origin as a
    header value, have "Origin" under Vary, and their allow-origin
    header, when set, repeats the request origin (as the platform stores
    it, without the whitespace around it), which the list then matches.
    The list made of "*" alone matches the request origin "*" and no
    other; in any list, "*" contributes exactly the request origin "*" on
    top of what the other elements match.  The same holds when an origin
    function resolves to the list. *)
Theorem wildcard_in_list_is_literal (ro : option string) l :
  (∀ oh, getOriginHeaders ro (OArr l) = Ok oh →
     oh !! "vary" = Some ["Origin"]
     ∧ ∀ x, Headers.get oh "Access-Control-Allow-Origin" = Some x →
            ∃ o, ro = Some o ∧ x = normalize o ∧ o ≠ ""
                 ∧ isOriginAllowed o (OArr l) = true)
  ∧ (accepted (default "" ro) = true →
     ∃ oh, getOriginHeaders ro (OArr l) = Ok oh)
  ∧ (∀ origin, isOriginAllowed origin (OArr [OStr "*"]) = true ↔ origin = "*")
  ∧ (∀ origin,
       OStr "*" ∈ l →
       (isOriginAllowed origin (OArr l) = true
        ↔ origin = "*"
          ∨ ∃ a, a ∈ l ∧ a ≠ OStr "*" ∧ isOriginAllowed origin a = true))
  ∧ (∀ req (f : OriginFn),
       f (reqOriginOf req) req = Ok (OArr l) →
       originHeadersFromReq req (Fn f)
       = (oh ← getOriginHeaders (reqOriginOf req) (OArr l); Ok (Some oh))).
Proof.
  split.
  { intros oh. rewrite getOriginHeaders_other by done.
    destruct (isOriginAllowed (default "" ro) (OArr l) && present ro) eqn:Hc.
    - destruct (accepted (default "" ro)); [|done]. intros [= <-].
      split; [done|]. intros x. unfold Headers.get.
      change (lower "Access-Control-Allow-Origin")
        with "access-control-allow-origin".
      rewrite lookup_insert_eq. simpl. intros [= <-].
      apply andb_prop in Hc as [Hallowed Hpresent].
      destruct ro as [o|]; [|done]. simpl in *.
      exists o. by apply nonempty_true in Hpresent.
    - intros [= <-]. split; [done|]. intros x. unfold Headers.get.
      change (lower "Access-Control-Allow-Origin")
        with "access-control-allow-origin".
      by rewrite lookup_singleton_ne. }
  split.
  { intros Hacc. rewrite getOriginHeaders_other, Hacc by done.
    destruct (_ && _); eauto. }
  split.
  { intros origin. simpl. rewrite orb_false_r. apply String.eqb_eq. }
  split.
  { intros origin Hstar. rewrite isOriginAllowed_array. split.
    - intros (a & Hin & Ha).
      destruct (isWildcard a) eqn:Hw.
      + apply isWildcard_true in Hw as ->. left. by apply String.eqb_eq.
      + apply isWildcard_false in Hw. right. eauto.
    - intros [->|(a & Hin & _ & Ha)]; [|by eauto].
      exists (OStr "*"). by split. }
  intros req f Hf. unfold originHeadersFromReq.
  fold (reqOriginOf req). by rewrite Hf.
Qed.

Lemma wildcard_in_list_is_literal_witness :
  isOriginAllowed "*" (OArr [OStr "*"]) = true
  ∧ ¬ isOriginAllowed "https://vercel.com" (OArr [OStr "*"]) = true.
Proof.
  destruct (wildcard_in_list_is_literal None [OStr "*"])
    as (_ & _ & Honly & _ & _).
  split.
  - apply Honly. reflexivity.
  - intros Hmatch. apply Honly in Hmatch. discriminate Hmatch.
Defined.

(** X8: for isOriginAllowed a list is the disjunction of its elements: the
    empty list allows nothing, two lists put together allow what either
    allows, the order of the elements does not matter, a list inside a list
    counts as its elements, and a list with true in it allows every
    origin. *)
Theorem isOriginAllowed_lists origin :
  isOriginAllowed origin (OArr []) = false
  ∧ (∀ l1 l2,
       isOriginAllowed origin (OArr (l1 ++ l2))
       = isOriginAllowed origin (OArr l1) || isOriginAllowed origin (OArr l2))
  ∧ (∀ l1 l2,
       l1 ≡ₚ l2 →
       isOriginAllowed origin (OArr l1) = isOriginAllowed origin (OArr l2))
  ∧ (∀ l l',
       isOriginAllowed origin (OArr (OArr l :: l'))
       = isOriginAllowed origin (OArr (l ++ l')))
  ∧ (∀ l, OBool true ∈ l → isOriginAllowed origin (OArr l) = true).
Proof.
  split; [done|].
  split; [intros l1 l2; simpl; apply existsb_app|].
  split.
  { intros l1 l2 Hperm. apply eq_true_iff_eq.
    rewrite !isOriginAllowed_array.
    split; intros (a & Hin & Ha); exists a; split; try done.
    - by rewrite <- Hperm.
    - by rewrite Hperm. }
  split; [intros l l'; simpl; by rewrite existsb_app|].
  intros l Hin. apply isOriginAllowed_array. by exists (OBool true).
Qed.

Lemma isOriginAllowed_lists_witness :
  isOriginAllowed "https://vercel.com"
    (OArr [OStr "https://a.example"; OBool true]) = true.
Proof.
  destruct (isOriginAllowed_lists "https://vercel.com")
    as (_ & _ & _ & _ & Htrue).
  apply Htrue. apply list_elem_of_In. right. left. reflexivity.
Defined.

End origin_matching.

(** ** The options object *)

Section options_object.
Implicit Types (σ : heap) (l : loc) (o : CorsOptions).

Lemma over_omitted {T} (t : field T) : over Omitted t = t.
Proof. by destruct t. Qed.

Lemma cors_keeping req res options : keeping (cors req res options).
Proof. unfold cors. keeping_steps. Qed.

(** C6: a call of cors leaves the options object it is given as it was,
    field for field, however the call ends; what it works with is a new
    object, at an address unused before the call, whose fields are the
    caller's where the caller's object has them and the defaults
    elsewhere. *)
Theorem options_never_mutated req res l o σ :
  σ !! l = Some (CObject o) →
  (cors req res (Some l) σ).2 !! l = Some (CObject o)
  ∧ (∃ w working,
       σ !! w = None
       ∧ (cors req res (Some l) σ).2 !! w = Some (CObject working)
       ∧ origin working = over (Value (Static (OStr "*"))) (origin o)
       ∧ methods working
         = over (Value (Str "GET,HEAD,PUT,PATCH,POST,DELETE")) (methods o)
       ∧ preflightContinue working = over (Value false) (preflightContinue o)
       ∧ optionsSuccessStatus working
         = over (Value (Number.ofZ 204)) (optionsSuccessStatus o)
       ∧ allowedHeaders working = allowedHeaders o
       ∧ exposedHeaders working = exposedHeaders o
       ∧ credentials working = credentials o
       ∧ maxAge working = maxAge o).
Proof.
  intros Hl. unfold cors.
  erewrite bind_ok by (unfold getObject; by rewrite Hl).
  erewrite bind_ok by reflexivity.
  set (σ1 := <[fresh (dom σ) := _]> σ).
  match goal with |- context [mbind ?k ?m σ1] => set (rest := mbind k m) end.
  assert (Hrest : keeping rest) by (unfold rest; keeping_steps).
  specialize (Hrest σ1). split.
  - apply Hrest; [|done].
    unfold σ1. by rewrite lookup_insert_ne by (by eapply fresh_ne).
  - exists (fresh (dom σ)), (spread defaultOptions o).
    split; [apply fresh_lookup|].
    split; [apply Hrest; [apply lookup_insert_eq|done]|].
    simpl. by rewrite !over_omitted.
Qed.

Lemma options_never_mutated_witness :
  (cors (sampleRequest "OPTIONS" "https://vercel.com") 1%positive
     (Some 3%positive)
     (sampleStore ∅ (withOrigin (Static (OStr "https://vercel.com"))))).2
    !! 3%positive
  = Some (CObject (withOrigin (Static (OStr "https://vercel.com")))).
Proof.
  apply (options_never_mutated
           (sampleRequest "OPTIONS" "https://vercel.com") 1%positive
           3%positive (withOrigin (Static (OStr "https://vercel.com")))
           (sampleStore ∅ (withOrigin (Static (OStr "https://vercel.com"))))).
  reflexivity.
Defined.

End options_object.

(** ** Whole calls *)

Section whole_calls.
Implicit Types (σ : heap) (h oh : HeaderMap) (o : CorsOptions) (k : string).

(** A call for which origin resolution produced headers. *)
Lemma cors_after_origin req res options σ r h o oh :
  optionsAt σ options o →
  σ !! res = Some (CResponse r) →
  σ !! Response.headers r = Some (CHeaders h) →
  originHeadersFromReq req (originOr (spread defaultOptions o)) = Ok (Some oh) →
  cors req res options σ
  = let opts := spread defaultOptions o in
    let σ2 := <[Response.headers r := CHeaders (finalHeaders req opts oh h)]>
                (<[fresh (dom σ) := CObject opts]> σ) in
    if headersAccepted req opts then
      if closes req opts
      then newResponse (read (optionsSuccessStatus opts)) (Response.headers r) σ2
      else (Ok res, σ2)
    else (Throw TypeError, σ2).
Proof.
  intros Ho Hr Hh Horigin.
  rewrite (cors_run _ _ _ _ _ _ _ Ho Hr Hh). unfold corsOutcome.
  rewrite Horigin. cbv zeta.
  apply originHeadersFromReq_some in Horigin as (value & _ & _ & Hoh).
  rewrite runWrites_outcome.
  destruct (accepted_corsWrites req (spread defaultOptions o) _ _ _ Hoh)
    as [_ ->].
  by destruct (headersAccepted req (spread defaultOptions o)).
Qed.

Lemma falsy_values value :
  value = OBool false ∨ value = OStr "" ∨ value = OUndefined ↔ truthy value = false.
Proof.
  split.
  - by intros [->|[->| ->]].
  - destruct value as [[]|s| | |]; simpl; try done; eauto.
    unfold nonempty. rewrite negb_false_iff, String.eqb_eq. intros ->. eauto.
Qed.

(** C3: when the origin resolves to a falsy value (false, the empty
    string, or nothing at all, which is also what an origin option given
    as undefined amounts to), cors returns the response it was given and
    every object the store held, the response and its collection among
    them, is as it was: no header is added, whatever the request's
    Origin. *)
Theorem falsy_origin_untouched req res options σ r h o value :
  optionsAt σ options o →
  σ !! res = Some (CResponse r) →
  σ !! Response.headers r = Some (CHeaders h) →
  resolvesTo req (originOr (spread defaultOptions o)) value →
  value = OBool false ∨ value = OStr "" ∨ value = OUndefined →
  (∃ σ',
     cors req res options σ = (Ok res, σ')
     ∧ σ' !! res = Some (CResponse r)
     ∧ σ' !! Response.headers r = Some (CHeaders h)
     ∧ ∀ l, is_Some (σ !! l) → σ' !! l = σ !! l)
  ∧ (origin o = Undefined →
     originOr (spread defaultOptions o) = Static (OBool false)).
Proof.
  intros Ho Hr Hh Hres Hfalsy. apply falsy_values in Hfalsy.
  split; [|intros Hu; unfold originOr; simpl; by rewrite Hu].
  rewrite (cors_run _ _ _ _ _ _ _ Ho Hr Hh). unfold corsOutcome.
  rewrite (originHeadersFromReq_falsy _ _ _ Hres Hfalsy). cbv zeta.
  assert (Hkeep : ∀ l, is_Some (σ !! l) →
            <[fresh (dom σ) := CObject (spread defaultOptions o)]> σ !! l
            = σ !! l).
  { intros l [c Hl]. by rewrite lookup_insert_ne by (by eapply fresh_ne). }
  eexists. split; [done|].
  split; [by rewrite Hkeep, Hr by eauto|].
  split; [by rewrite Hkeep, Hh by eauto|done].
Qed.

Lemma falsy_origin_untouched_witness :
  ∃ σ',
    cors (sampleRequest "GET" "https://vercel.com") 1%positive
      (Some 3%positive) (sampleStore ∅ (withOrigin (Static (OBool false))))
    = (Ok 1%positive, σ')
    ∧ σ' !! 2%positive = Some (CHeaders ∅).
Proof.
  destruct (falsy_origin_untouched
              (sampleRequest "GET" "https://vercel.com") 1%positive
              (Some 3%positive)
              (sampleStore ∅ (withOrigin (Static (OBool false))))
              sampleResponse ∅ (withOrigin (Static (OBool false)))
              (OBool false))
    as [(σ' & Hrun & _ & Hh & _) _];
    [reflexivity|reflexivity|reflexivity|reflexivity|left; reflexivity|].
  exists σ'. split; [exact Hrun|exact Hh].
Defined.

(** X11: cors never removes a header: on a store where the response and
    the options are in place, whatever the method and the origin outcome,
    every name the collection of the given response had before the call it
    still has afterwards, and the values it had under Vary are the first
    values under Vary afterwards, in the same order. *)
Theorem cors_never_removes req res options σ r h o :
  optionsAt σ options o →
  σ !! res = Some (CResponse r) →
  σ !! Response.headers r = Some (CHeaders h) →
  ∃ h',
    (cors req res options σ).2 !! Response.headers r = Some (CHeaders h')
    ∧ (∀ k, is_Some (h !! k) → is_Some (h' !! k))
    ∧ (∀ old, h !! "vary" = Some old →
              ∃ more, h' !! "vary" = Some (old ++ more)).
Proof.
  intros Ho Hr Hh.
  assert (Hsame : ∀ σ', σ' !! Response.headers r = Some (CHeaders h) →
            ∃ h', σ' !! Response.headers r = Some (CHeaders h')
                  ∧ (∀ k, is_Some (h !! k) → is_Some (h' !! k))
                  ∧ (∀ old, h !! "vary" = Some old →
                            ∃ more, h' !! "vary" = Some (old ++ more))).
  { intros σ' Hσ'. exists h. split; [done|]. split; [done|].
    intros old Hold. exists []. by rewrite app_nil_r. }
  destruct (originHeadersFromReq req (originOr (spread defaultOptions o)))
    as [[oh|]|e] eqn:Horigin.
  - destruct (cors_final _ _ _ _ _ _ _ _ Ho Hr Hh Horigin) as [_ Hfinal].
    eexists. split; [exact Hfinal|].
    apply originHeadersFromReq_some in Horigin as (value & _ & _ & Hoh).
    split.
    + intros k Hk. rewrite finalHeaders_lookup. by apply after_is_Some.
    + intros old Hold. rewrite finalHeaders_lookup, Hold.
      apply after_extends, sets_validPrefix.
      rewrite (corsWrites_later _ _ _ _ _ Hoh), sets_app.
      by rewrite sets_vary_origin, sets_vary_later.
  - apply Hsame. rewrite (cors_run _ _ _ _ _ _ _ Ho Hr Hh).
    unfold corsOutcome. rewrite Horigin. simpl.
    by rewrite lookup_insert_ne by (by eapply fresh_ne).
  - apply Hsame. rewrite (cors_run _ _ _ _ _ _ _ Ho Hr Hh).
    unfold corsOutcome. rewrite Horigin. simpl.
    by rewrite lookup_insert_ne by (by eapply fresh_ne).
Qed.

Lemma cors_never_removes_witness :
  ∃ h',
    (cors (sampleRequest "OPTIONS" "https://vercel.com") 1%positive None
       (sampleStore {["vary" := ["Foo"]; "x-custom" := ["1"]]} noOptions)).2
      !! 2%positive = Some (CHeaders h')
    ∧ is_Some (h' !! "x-custom")
    ∧ ∃ more, h' !! "vary" = Some ("Foo" :: more).
Proof.
  destruct (cors_never_removes
              (sampleRequest "OPTIONS" "https://vercel.com") 1%positive None
              (sampleStore {["vary" := ["Foo"]; "x-custom" := ["1"]]} noOptions)
              sampleResponse {["vary" := ["Foo"]; "x-custom" := ["1"]]}
              noOptions)
    as (h' & Hh & Hkeeps & Hvary); [reflexivity|reflexivity|reflexivity|].
  exists h'. split; [exact Hh|]. split.
  - apply Hkeeps. eexists. reflexivity.
  - apply (Hvary ["Foo"]). reflexivity.
Defined.

(** X12: an options object that spells out the documented defaults, or
    leaves any of them out, is the same as no options at all: the call
    returns the same response and leaves the same store.  The empty object
    and the object of the four documented defaults are such objects. *)
Theorem defaults_need_not_be_given req res l σ r h o :
  σ !! l = Some (CObject o) →
  σ !! res = Some (CResponse r) →
  σ !! Response.headers r = Some (CHeaders h) →
  spread defaultOptions o = defaultOptions →
  cors req res (Some l) σ = cors req res None σ
  ∧ spread defaultOptions noOptions = defaultOptions
  ∧ spread defaultOptions defaultOptions = defaultOptions.
Proof.
  intros Hl Hr Hh Hspread. split; [|done].
  rewrite (cors_run req res (Some l) σ r h o Hl Hr Hh).
  rewrite (cors_run req res None σ r h noOptions eq_refl Hr Hh).
  unfold corsOutcome. by rewrite Hspread.
Qed.

Lemma defaults_need_not_be_given_witness :
  cors (sampleRequest "OPTIONS" "https://vercel.com") 1%positive
    (Some 3%positive) (sampleStore ∅ defaultOptions)
  = cors (sampleRequest "OPTIONS" "https://vercel.com") 1%positive None
      (sampleStore ∅ defaultOptions).
Proof.
  apply (defaults_need_not_be_given
           (sampleRequest "OPTIONS" "https://vercel.com") 1%positive
           3%positive (sampleStore ∅ defaultOptions) sampleResponse ∅
           defaultOptions);
    reflexivity.
Defined.

End whole_calls.

(** ** What a call writes to *)

Section call_frame.
Implicit Types (σ : heap) (l : loc).

(** Every cell but the collection of the given response is left alone. *)
Lemma cors_framed req res options σ l :
  is_Some (σ !! l) →
  (∀ r, σ !! res = Some (CResponse r) → l ≠ Response.headers r) →
  (cors req res options σ).2 !! l = σ !! l.
Proof.
  intros Hl Hne. unfold cors.
  destruct (match options with
            | Some l0 => getObject l0
            | None => mret noOptions
            end σ) as [[given|e] σ0] eqn:Hgiven.
  2: { erewrite bind_throw by exact Hgiven.
       destruct options as [l0|]; [|done]. unfold getObject in Hgiven.
       by destruct (σ !! l0) as [[]|]; simplify_eq. }
  assert (σ0 = σ) as ->.
  { destruct options as [l0|]; [|by inversion Hgiven].
    unfold getObject in Hgiven. by destruct (σ !! l0) as [[]|]; simplify_eq. }
  erewrite bind_ok by exact Hgiven.
  erewrite bind_ok by reflexivity.
  erewrite bind_ok by (unfold getObject; by rewrite lookup_insert_eq).
  set (σ1 := <[fresh (dom σ) := CObject (spread defaultOptions given)]> σ).
  assert (H1 : σ1 !! l = σ !! l).
  { destruct Hl as [c Hc]. unfold σ1.
    by rewrite lookup_insert_ne by (by eapply fresh_ne). }
  destruct (getResponse res σ1) as [[r|e] σ1'] eqn:Hget.
  2: { erewrite bind_throw by exact Hget. unfold getResponse in Hget.
       by destruct (σ1 !! res) as [[]|]; simplify_eq. }
  assert (σ1' = σ1 ∧ σ1 !! res = Some (CResponse r)) as [-> Hres].
  { unfold getResponse in Hget.
    by destruct (σ1 !! res) as [[]|]; simplify_eq. }
  assert (Hr : σ !! res = Some (CResponse r)).
  { unfold σ1 in Hres. destruct (decide (res = fresh (dom σ))) as [->|?].
    - by rewrite lookup_insert_eq in Hres.
    - by rewrite lookup_insert_ne in Hres. }
  erewrite bind_ok by exact Hget. cbv beta zeta.
  match goal with
  | |- (?m σ1).2 !! l = _ =>
      assert (Hrest : framing (Response.headers r) m) by framing_steps
  end.
  rewrite (Hrest σ1 l); [done|by rewrite H1|by apply Hne].
Qed.

(** The collection of the given response stays a collection. *)
Lemma cors_collection_stays req res options σ r h :
  σ !! res = Some (CResponse r) →
  σ !! Response.headers r = Some (CHeaders h) →
  ∃ h', (cors req res options σ).2 !! Response.headers r = Some (CHeaders h').
Proof.
  intros Hr Hh.
  assert (Hopt : (∃ o, optionsAt σ options o)
                 ∨ ∃ l0, options = Some l0
                         ∧ ∀ o, σ !! l0 ≠ Some (CObject o)).
  { destruct options as [l0|]; [|left; by exists noOptions].
    destruct (σ !! l0) as [[| |o]|] eqn:Hl0;
      [right|right|left; by exists o|right]; exists l0;
      (split; [done|]); intros o; by rewrite Hl0. }
  destruct Hopt as [[o Ho]|(l0 & -> & Hno)].
  - destruct (originHeadersFromReq req (originOr (spread defaultOptions o)))
      as [[oh|]|e] eqn:Horigin.
    + destruct (cors_final _ _ _ _ _ _ _ _ Ho Hr Hh Horigin) as [_ Hfinal].
      eauto.
    + exists h. rewrite (cors_run _ _ _ _ _ _ _ Ho Hr Hh).
      unfold corsOutcome. rewrite Horigin. simpl.
      by rewrite lookup_insert_ne by (by eapply fresh_ne).
    + exists h. rewrite (cors_run _ _ _ _ _ _ _ Ho Hr Hh).
      unfold corsOutcome. rewrite Horigin. simpl.
      by rewrite lookup_insert_ne by (by eapply fresh_ne).
  - exists h. unfold cors.
    erewrite bind_throw; [done|]. unfold getObject.
    destruct (σ !! l0) as [[| |o]|] eqn:Hl0; try done. by destruct (Hno o).
Qed.

(** X1: whatever the request, the options and the outcome, a call of cors
    leaves every response, every options object and every header
    collection the store held as it was, except the header collection of
    the response it is given: of these objects it writes to that
    collection alone, and the collection is still a collection
    afterwards. *)
Theorem cors_writes_only_given_collection req res options σ r h :
  σ !! res = Some (CResponse r) →
  σ !! Response.headers r = Some (CHeaders h) →
  (∀ l, is_Some (σ !! l) → l ≠ Response.headers r →
        (cors req res options σ).2 !! l = σ !! l)
  ∧ (cors req res options σ).2 !! res = Some (CResponse r)
  ∧ ∃ h', (cors req res options σ).2 !! Response.headers r = Some (CHeaders h').
Proof.
  intros Hr Hh.
  assert (Hframe : ∀ l, is_Some (σ !! l) → l ≠ Response.headers r →
            (cors req res options σ).2 !! l = σ !! l).
  { intros l Hl Hne. apply cors_framed; [done|].
    intros r' Hr'. rewrite Hr in Hr'. by injection Hr' as <-. }
  split; [exact Hframe|]. split.
  - rewrite Hframe, Hr; [done|by eauto|]. intros Heq.
    rewrite Heq, Hh in Hr. discriminate Hr.
  - by eapply cors_collection_stays.
Qed.

Lemma cors_writes_only_given_collection_witness :
  (cors (sampleRequest "OPTIONS" "https://vercel.com") 1%positive
     (Some 3%positive)
     (twoResponses ∅ {["vary" := ["Foo"]]} (withMaxAge (Number.ofZ 0)))).2
    !! 5%positive
  = Some (CHeaders {["vary" := ["Foo"]]}).
Proof.
  destruct (cors_writes_only_given_collection
              (sampleRequest "OPTIONS" "https://vercel.com") 1%positive
              (Some 3%positive)
              (twoResponses ∅ {["vary" := ["Foo"]]} (withMaxAge (Number.ofZ 0)))
              sampleResponse ∅)
    as (Hframe & _ & _); [reflexivity|reflexivity|].
  rewrite (Hframe 5%positive); [reflexivity|eexists; reflexivity|discriminate].
Defined.

End call_frame.

(** ** Preflight requests *)

Section preflight.
Implicit Types (σ : heap) (h oh : HeaderMap) (o : CorsOptions) (k : string).

Lemma continues_spread o :
  default false (read (preflightContinue (spread defaultOptions o)))
  = continues o.
Proof. by destruct o as [? ? ? ? ? ? [| |[]] ?]. Qed.

Lemma continues_true o : continues o = true ↔ preflightContinue o = Value true.
Proof.
  unfold continues. destruct (preflightContinue o) as [| |[]];
    split; congruence.
Qed.

Lemma isPreflight_true req : isPreflight req = true ↔ Request.method req = "OPTIONS".
Proof. apply String.eqb_eq. Qed.

Lemma statusFor_spread o :
  statusFor (spread defaultOptions o)
  = match optionsSuccessStatus o with
    | Omitted => 204%Z
    | Undefined => 200%Z
    | Value n => Number.toUnsignedShort n
    end.
Proof. unfold statusFor. by destruct o as [? ? ? ? ? ? ? [| |n]]. Qed.

Lemma inRange_true status :
  Response.inRange status = true ↔ (200 ≤ status ≤ 599)%Z.
Proof. unfold Response.inRange. rewrite andb_true_iff. lia. Qed.

(** What a call leaves in the collection, name by name, once origin
    headers exist. *)
Lemma cors_headers req res options σ r h o oh :
  optionsAt σ options o →
  σ !! res = Some (CResponse r) →
  σ !! Response.headers r = Some (CHeaders h) →
  originHeadersFromReq req (originOr (spread defaultOptions o)) = Ok (Some oh) →
  ∃ value h',
    resolvesTo req (originOr (spread defaultOptions o)) value
    ∧ truthy value = true
    ∧ getOriginHeaders (reqOriginOf req) value = Ok oh
    ∧ (cors req res options σ).2 !! res = Some (CResponse r)
    ∧ (cors req res options σ).2 !! Response.headers r = Some (CHeaders h')
    ∧ ∀ k, h' !! k
           = after (validPrefix (laterWrites req (spread defaultOptions o))) k
               (after (originWrites (reqOriginOf req) value) k (h !! k)).
Proof.
  intros Ho Hr Hh Horigin.
  destruct (cors_final _ _ _ _ _ _ _ _ Ho Hr Hh Horigin) as [Hres Hfinal].
  apply originHeadersFromReq_some in Horigin as (value & Hvalue & Ht & Hoh).
  exists value, (finalHeaders req (spread defaultOptions o) oh h).
  do 5 (split; [done|]). intros k. by apply finalHeaders_later.
Qed.

(** C1, amended: on an OPTIONS request for which origin resolution
    produced headers and the platform accepts the header values the
    options supply, cors ends in one of three ways.  With
    preflightContinue true it returns the response it was given, whose
    collection holds the accumulated headers, and the store has no
    response it did not have before.  Otherwise Content-Length 0 is set on
    the accumulated headers, in the collection of the given response, and
    the status is optionsSuccessStatus converted to an unsigned short: 204
    when the caller leaves it out (and the 200 of the platform when the
    caller passes undefined for it).  When the status lies from 200 to 599
    cors returns a response at an address unused before the call, with a
    collection of its own holding the same headers, no body and that
    status; when it does not, cors rejects with a RangeError and no
    response is made.  In every case the given response keeps its
    collection, status and body. *)
Theorem preflight_outcome req res options σ r h o oh :
  optionsAt σ options o →
  σ !! res = Some (CResponse r) →
  σ !! Response.headers r = Some (CHeaders h) →
  Request.method req = "OPTIONS" →
  originHeadersFromReq req (originOr (spread defaultOptions o)) = Ok (Some oh) →
  headersAccepted req (spread defaultOptions o) = true →
  let opts := spread defaultOptions o in
  let acc := accumulated req opts oh h in
  let closed := <["content-length" := ["0"]]> acc in
  let status := statusFor opts in
  ∃ out σ',
    cors req res options σ = (out, σ')
    ∧ σ' !! res = Some (CResponse r)
    ∧ (preflightContinue o = Value true →
         out = Ok res
         ∧ σ' !! Response.headers r = Some (CHeaders acc)
         ∧ ∀ l x, σ' !! l = Some (CResponse x) → σ !! l = Some (CResponse x))
    ∧ (preflightContinue o ≠ Value true →
         σ' !! Response.headers r = Some (CHeaders closed)
         ∧ Headers.set acc "Content-Length" "0" = Ok closed
         ∧ ((200 ≤ status ≤ 599)%Z →
            ∃ ret own,
              out = Ok ret
              ∧ σ !! ret = None
              ∧ σ !! own = None
              ∧ σ' !! own = Some (CHeaders closed)
              ∧ σ' !! ret = Some (CResponse (Response.mk own status None)))
         ∧ (¬ (200 ≤ status ≤ 599)%Z →
            out = Throw RangeError
            ∧ ∀ l x, σ' !! l = Some (CResponse x) → σ !! l = Some (CResponse x)))
    ∧ status = match optionsSuccessStatus o with
               | Omitted => 204%Z
               | Undefined => 200%Z
               | Value n => Number.toUnsignedShort n
               end.
Proof.
  intros Ho Hr Hh Hm Horigin Hacc. cbv zeta.
  rewrite (cors_after_origin _ _ _ _ _ _ _ _ Ho Hr Hh Horigin). cbv zeta.
  rewrite Hacc, finalHeaders_accumulated.
  apply originHeadersFromReq_some in Horigin as (value & _ & _ & Hoh).
  destruct (accepted_corsWrites req (spread defaultOptions o) _ _ _ Hoh)
    as [-> _].
  rewrite Hacc, andb_true_r.
  apply isPreflight_true in Hm. unfold closes. rewrite Hm. cbn [andb].
  rewrite continues_spread.
  set (opts := spread defaultOptions o).
  set (acc := accumulated req opts oh h).
  set (closed := <["content-length" := ["0"]]> acc).
  set (status := statusFor opts).
  set (σ1 := <[fresh (dom σ) := CObject opts]> σ).
  assert (Hw1 : fresh (dom σ) ≠ res) by (by eapply fresh_ne).
  assert (Hw2 : fresh (dom σ) ≠ Response.headers r) by (by eapply fresh_ne).
  assert (Hne : res ≠ Response.headers r) by congruence.
  assert (H2new : ∀ c l x,
            <[Response.headers r := CHeaders c]> σ1 !! l = Some (CResponse x) →
            σ !! l = Some (CResponse x)).
  { intros c l x Hl.
    destruct (decide (l = Response.headers r)) as [->|?];
      [by rewrite lookup_insert_eq in Hl|].
    rewrite lookup_insert_ne in Hl by done. unfold σ1 in Hl.
    destruct (decide (l = fresh (dom σ))) as [->|?].
    - by rewrite lookup_insert_eq in Hl.
    - by rewrite lookup_insert_ne in Hl. }
  assert (H2r : ∀ c, <[Response.headers r := CHeaders c]> σ1 !! res
                     = Some (CResponse r)).
  { intros c. unfold σ1. by rewrite lookup_insert_ne, lookup_insert_ne. }
  assert (Hstatus := statusFor_spread o). fold opts status in Hstatus.
  destruct (continues o) eqn:Hc; cbn [negb]; cbv iota.
  - exists (Ok res), (<[Response.headers r := CHeaders acc]> σ1).
    split; [done|]. split; [apply H2r|].
    split; [|split; [|exact Hstatus]].
    + intros _. split; [done|]. split; [apply lookup_insert_eq|apply H2new].
    + intros Hpc. apply continues_true in Hc. by destruct Hpc.
  - fold closed.
    set (σ2 := <[Response.headers r := CHeaders closed]> σ1).
    assert (H2h : σ2 !! Response.headers r = Some (CHeaders closed))
      by apply lookup_insert_eq.
    rewrite (newResponse_run _ _ _ closed H2h).
    fold (statusFor opts). fold status.
    assert (Hpc : preflightContinue o ≠ Value true).
    { intros Hpc%continues_true. by rewrite Hpc in Hc. }
    destruct (Response.inRange status) eqn:Hrange; cbv zeta.
    + apply inRange_true in Hrange.
      set (own := fresh (dom σ2)).
      set (σ3 := <[own := CHeaders closed]> σ2).
      set (new := fresh (dom σ3)).
      assert (Hown : σ2 !! own = None) by apply fresh_lookup.
      assert (Hnew : σ3 !! new = None) by apply fresh_lookup.
      assert (Hnew2 : σ2 !! new = None).
      { unfold σ3 in Hnew. by apply lookup_insert_None in Hnew as [Hnew _]. }
      assert (Hnew_own : new ≠ own).
      { unfold σ3 in Hnew. by apply lookup_insert_None in Hnew as [_ Hnew]. }
      assert (Hbefore : ∀ l, σ2 !! l = None → σ !! l = None).
      { intros l Hl. unfold σ2, σ1 in Hl.
        apply lookup_insert_None in Hl as [Hl _].
        by apply lookup_insert_None in Hl as [Hl _]. }
      assert (Hkept : ∀ l c, σ2 !! l = Some c →
                <[new := CResponse (Response.mk own status None)]> σ3 !! l
                = Some c).
      { intros l c Hl.
        rewrite lookup_insert_ne by (intros <-; by rewrite Hnew2 in Hl).
        unfold σ3.
        by rewrite lookup_insert_ne by (intros <-; by rewrite Hown in Hl). }
      eexists _, _. split; [done|].
      split; [apply Hkept, H2r|].
      split; [intros Hcontra; by destruct Hpc|].
      split; [|exact Hstatus]. intros _.
      split; [by apply Hkept|]. split; [done|]. split.
      * intros _. exists new, own. split; [done|].
        split; [by apply Hbefore|]. split; [by apply Hbefore|].
        split; [|apply lookup_insert_eq].
        rewrite lookup_insert_ne by done. apply lookup_insert_eq.
      * intros Hout. by destruct Hout.
    + assert (Hout : ¬ (200 ≤ status ≤ 599)%Z).
      { intros Hin%inRange_true. by rewrite Hin in Hrange. }
      eexists _, _. split; [done|].
      split; [apply H2r|].
      split; [intros Hcontra; by destruct Hpc|].
      split; [|exact Hstatus]. intros _.
      split; [done|]. split; [done|]. split.
      * intros Hin. by destruct Hout.
      * intros _. split; [done|]. apply H2new.
Qed.

Lemma preflight_outcome_witness :
  ∃ ret σ',
    cors (sampleRequest "OPTIONS" "https://vercel.com") 1%positive None
      (sampleStore ∅ noOptions) = (Ok ret, σ')
    ∧ sampleStore ∅ noOptions !! ret = None
    ∧ ∃ own, σ' !! ret = Some (CResponse (Response.mk own 204%Z None)).
Proof.
  destruct (preflight_outcome
              (sampleRequest "OPTIONS" "https://vercel.com") 1%positive None
              (sampleStore ∅ noOptions) sampleResponse ∅ noOptions
              {["access-control-allow-origin" := ["*"]]})
    as (out & σ' & Hrun & _ & _ & Hnew & _);
    [reflexivity|reflexivity|reflexivity|reflexivity|reflexivity|reflexivity|].
  destruct Hnew as (_ & _ & Hin & _); [discriminate|].
  destruct Hin as (ret & own & -> & Hfresh & _ & _ & Hret);
    [split; [vm_compute; discriminate|vm_compute; discriminate]|].
  exists ret, σ'. split; [exact Hrun|]. split; [exact Hfresh|].
  exists own. exact Hret.
Defined.

(** C1 as stated fails: with optionsSuccessStatus 99 an OPTIONS request for
    which origin resolution produced headers ends in neither of the two
    ways: cors rejects with a RangeError, after Content-Length was written
    to the collection of the given response.  With methods holding a line
    feed it rejects with a TypeError. *)
Lemma preflight_outcome_counterexample :
  originHeadersFromReq (Request.mk "OPTIONS" ∅)
    (originOr (spread defaultOptions (withStatus (Number.ofZ 99))))
  = Ok (Some {["access-control-allow-origin" := ["*"]]})
  ∧ (∃ σ' h',
       cors (Request.mk "OPTIONS" ∅) 1%positive (Some 3%positive)
         (sampleStore ∅ (withStatus (Number.ofZ 99)))
       = (Throw RangeError, σ')
       ∧ σ' !! 2%positive = Some (CHeaders h')
       ∧ Headers.get h' "Content-Length" = Some "0")
  ∧ (∃ σ',
       cors (Request.mk "OPTIONS" ∅) 1%positive (Some 3%positive)
         (sampleStore ∅
            (optionsOf Omitted (Value (Str twoLines)) Omitted Omitted Omitted
               Omitted))
       = (Throw TypeError, σ')).
Proof.
  split; [reflexivity|]. split.
  - eexists _, _. split; [vm_compute; reflexivity|].
    split; [vm_compute; reflexivity|]. vm_compute. reflexivity.
  - eexists. vm_compute. reflexivity.
Qed.

End preflight.

(** ** The origin headers *)

Section origin_headers.
Implicit Types (σ : heap) (h oh : HeaderMap) (o : CorsOptions) (k : string).
Implicit Types (ro : option string) (v value : StaticOrigin).

Lemma getOriginHeaders_string ro (s : string) :
  getOriginHeaders ro (OStr s)
  = if String.eqb s "*" then Ok {["access-control-allow-origin" := ["*"]]}
    else if accepted s
         then Ok {["access-control-allow-origin" := [normalize s];
                   "vary" := ["Origin"]]}
         else Throw TypeError.
Proof.
  unfold getOriginHeaders. simpl. destruct (String.eqb s "*"); [done|].
  destruct (accepted s) eqn:Hacc.
  - by rewrite set_accepted by done.
  - by rewrite set_rejected.
Qed.

Lemma not_string v : (∀ s, v ≠ OStr s) ∨ ∃ s, v = OStr s.
Proof. destruct v; eauto; left; by intros s. Qed.

Lemma getOriginHeaders_vary ro v oh :
  getOriginHeaders ro v = Ok oh →
  oh !! "vary" = if isWildcard v then None else Some ["Origin"].
Proof.
  destruct (not_string v) as [Hv|[s ->]].
  - rewrite getOriginHeaders_other by done.
    assert (Hw : isWildcard v = false) by (apply isWildcard_false, Hv).
    rewrite Hw. destruct (_ && _); [destruct (accepted _)|];
      by intros [= <-].
  - rewrite getOriginHeaders_string. simpl.
    destruct (String.eqb s "*"); [by intros [= <-]|].
    destruct (accepted s); by intros [= <-].
Qed.

Lemma getOriginHeaders_allowOrigin ro v oh :
  getOriginHeaders ro v = Ok oh →
  oh !! "access-control-allow-origin"
  = match v with
    | OStr s => Some [normalize s]
    | _ =>
        if isOriginAllowed (default "" ro) v && present ro
        then Some [normalize (default "" ro)] else None
    end.
Proof.
  destruct (not_string v) as [Hv|[s ->]].
  - rewrite getOriginHeaders_other by done. intros Hoh.
    assert (oh !! "access-control-allow-origin"
            = if isOriginAllowed (default "" ro) v && present ro
              then Some [normalize (default "" ro)] else None) as Hgoal.
    { revert Hoh. destruct (_ && _); [destruct (accepted _)|];
        by intros [= <-]. }
    destruct v as [b|s|re|l|]; try exact Hgoal. by destruct (Hv s).
  - rewrite getOriginHeaders_string.
    destruct (String.eqb_spec s "*") as [->|?]; [by intros [= <-]|].
    destruct (accepted s); by intros [= <-].
Qed.

End origin_headers.

(** ** How a call ends *)

Section endings.
Implicit Types (σ : heap) (h oh : HeaderMap) (o : CorsOptions) (k : string).

(** Once origin headers exist, a call returns when the platform accepts
    the header values and the status, and otherwise throws what the
    platform throws. *)
Lemma cors_ends req res options σ r h o oh :
  optionsAt σ options o →
  σ !! res = Some (CResponse r) →
  σ !! Response.headers r = Some (CHeaders h) →
  originHeadersFromReq req (originOr (spread defaultOptions o)) = Ok (Some oh) →
  let opts := spread defaultOptions o in
  let σ' := (cors req res options σ).2 in
  match (cors req res options σ).1 with
  | Ok ret =>
      headersAccepted req opts = true
      ∧ (∃ returned,
           σ' !! ret = Some (CResponse returned)
           ∧ σ' !! Response.headers returned
             = Some (CHeaders (finalHeaders req opts oh h)))
      ∧ if closes req opts then
          Response.inRange (statusFor opts) = true
          ∧ σ !! ret = None
          ∧ ∃ own, σ !! own = None
                   ∧ σ' !! ret
                     = Some (CResponse (Response.mk own (statusFor opts) None))
        else ret = res
  | Throw e =>
      (∀ l x, σ' !! l = Some (CResponse x) → σ !! l = Some (CResponse x))
      ∧ if headersAccepted req opts
        then e = RangeError ∧ closes req opts = true
             ∧ Response.inRange (statusFor opts) = false
        else e = TypeError
  end.
Proof.
  intros Ho Hr Hh Horigin. cbv zeta.
  rewrite (cors_after_origin _ _ _ _ _ _ _ _ Ho Hr Hh Horigin). cbv zeta.
  set (opts := spread defaultOptions o).
  set (final := finalHeaders req opts oh h).
  set (σ1 := <[fresh (dom σ) := CObject opts]> σ).
  set (σ2 := <[Response.headers r := CHeaders final]> σ1).
  assert (Hne : res ≠ Response.headers r) by congruence.
  assert (H2r : σ2 !! res = Some (CResponse r)).
  { unfold σ2, σ1. rewrite lookup_insert_ne by done.
    by rewrite lookup_insert_ne by (by eapply fresh_ne). }
  assert (H2h : σ2 !! Response.headers r = Some (CHeaders final))
    by apply lookup_insert_eq.
  assert (H2new : ∀ l x, σ2 !! l = Some (CResponse x) →
                         σ !! l = Some (CResponse x)).
  { intros l x Hl. unfold σ2 in Hl.
    destruct (decide (l = Response.headers r)) as [->|?];
      [by rewrite lookup_insert_eq in Hl|].
    rewrite lookup_insert_ne in Hl by done. unfold σ1 in Hl.
    destruct (decide (l = fresh (dom σ))) as [->|?].
    - by rewrite lookup_insert_eq in Hl.
    - by rewrite lookup_insert_ne in Hl. }
  destruct (headersAccepted req opts); [|done].
  destruct (closes req opts); [|simpl; by eauto 10].
  rewrite (newResponse_run _ _ _ final H2h). fold (statusFor opts).
  destruct (Response.inRange (statusFor opts)); [|done]. cbv zeta. simpl.
  set (own := fresh (dom σ2)).
  set (σ3 := <[own := CHeaders final]> σ2).
  set (new := fresh (dom σ3)).
  assert (Hown : σ2 !! own = None) by apply fresh_lookup.
  assert (Hnew : σ3 !! new = None) by apply fresh_lookup.
  assert (Hnew2 : σ2 !! new = None).
  { unfold σ3 in Hnew. by apply lookup_insert_None in Hnew as [Hnew _]. }
  assert (Hnew_own : new ≠ own).
  { unfold σ3 in Hnew. by apply lookup_insert_None in Hnew as [_ Hnew]. }
  assert (Hbefore : ∀ l, σ2 !! l = None → σ !! l = None).
  { intros l Hl. unfold σ2, σ1 in Hl.
    apply lookup_insert_None in Hl as [Hl _].
    by apply lookup_insert_None in Hl as [Hl _]. }
  split; [done|]. split.
  - eexists. split; [apply lookup_insert_eq|]. simpl.
    rewrite lookup_insert_ne by done. apply lookup_insert_eq.
  - split; [done|]. split; [by apply Hbefore|].
    exists own. split; [by apply Hbefore|apply lookup_insert_eq].
Qed.

End endings.

(** ** Max-Age, and requests that are not preflight requests *)

Section maxAge_and_frames.
Implicit Types (σ : heap) (h oh : HeaderMap) (o : CorsOptions) (k : string).

Lemma maxAgeValue_spread o :
  maxAgeValue (spread defaultOptions o) = Number.toString <$> read (maxAge o).
Proof. unfold maxAgeValue. by destruct o as [? ? ? ? ? [| |n] ? ?]. Qed.

Lemma headersAccepted_preflight req opts :
  isPreflight req = true →
  headersAccepted req opts = true →
  acceptedIf (exposedValue opts) = true
  ∧ acceptedIf (methodsValue opts) = true
  ∧ acceptedIf (allowedValue req (read (allowedHeaders opts))) = true
  ∧ acceptedIf (maxAgeValue opts) = true.
Proof.
  unfold headersAccepted. intros ->.
  by intros [? [[? ?]%andb_prop ?]%andb_prop]%andb_prop.
Qed.

(** C8, amended: on an OPTIONS request for which origin resolution
    produced headers and the platform accepts the header values the
    options supply, a maxAge that is a number ends up under
    Access-Control-Max-Age as String writes it, in the collection of the
    given response and in that of the response returned, if one is: in
    decimal for an integer from -2^53 to 2^53, zero included; without a
    maxAge the header is as it was before the call. *)
Theorem maxAge_header req res options σ r h o oh :
  optionsAt σ options o →
  σ !! res = Some (CResponse r) →
  σ !! Response.headers r = Some (CHeaders h) →
  Request.method req = "OPTIONS" →
  originHeadersFromReq req (originOr (spread defaultOptions o)) = Ok (Some oh) →
  headersAccepted req (spread defaultOptions o) = true →
  ∃ h',
    (cors req res options σ).2 !! Response.headers r = Some (CHeaders h')
    ∧ (∀ ret, (cors req res options σ).1 = Ok ret →
         ∃ returned,
           (cors req res options σ).2 !! ret = Some (CResponse returned)
           ∧ (cors req res options σ).2 !! Response.headers returned
             = Some (CHeaders h'))
    ∧ match maxAge o with
      | Value n =>
          Headers.get h' "Access-Control-Max-Age"
          = Some (normalize (Number.toString n))
      | _ => h' !! "access-control-max-age" = h !! "access-control-max-age"
      end
    ∧ (∀ z, (- 2 ^ 53 ≤ z ≤ 2 ^ 53)%Z →
            maxAge o = Value (Number.ofZ z) →
            Headers.get h' "Access-Control-Max-Age"
            = Some (NilZero.string_of_int (Z.to_int z)))
    ∧ (maxAge o = Value (Number.ofZ 0) →
       Headers.get h' "Access-Control-Max-Age" = Some "0").
Proof.
  intros Ho Hr Hh Hm%isPreflight_true Horigin Hacc.
  destruct (headersAccepted_preflight _ _ Hm Hacc) as (He & Hme & Ha & Hage).
  pose proof (cors_ends _ _ _ _ _ _ _ _ Ho Hr Hh Horigin) as Hends.
  cbv zeta in Hends.
  destruct (cors_headers _ _ _ _ _ _ _ _ Ho Hr Hh Horigin)
    as (value & h' & _ & _ & Hoh & _ & Hfinal & Hk).
  destruct (cors_final _ _ _ _ _ _ _ _ Ho Hr Hh Horigin) as [_ Hfinal'].
  rewrite Hfinal in Hfinal'. injection Hfinal' as Heq.
  exists h'. split; [done|]. split.
  { intros ret Hret. rewrite Hret in Hends.
    destruct Hends as (_ & (returned & Hreturned & Hown) & _).
    exists returned. by rewrite Heq. }
  assert (Hget : Headers.get h' "Access-Control-Max-Age"
                 = join ", " <$>
                   match maxAge o with
                   | Value n => Some [normalize (Number.toString n)]
                   | _ => h !! "access-control-max-age"
                   end
                 ∧ h' !! "access-control-max-age"
                   = match maxAge o with
                     | Value n => Some [normalize (Number.toString n)]
                     | _ => h !! "access-control-max-age"
                     end).
  { rewrite get_lookup.
    change (lower "Access-Control-Max-Age") with "access-control-max-age".
    rewrite Hk, later_maxAge, origin_other by done.
    rewrite Hm, He, Hme, Ha. cbn [andb].
    rewrite maxAgeValue_spread in Hage |- *.
    destruct (maxAge o) as [| |n]; simpl in *; try done. by rewrite Hage. }
  destruct Hget as [Hget Hlookup]. split.
  { destruct (maxAge o); by rewrite ?Hget, ?Hlookup. }
  split.
  - intros z _ Hz.
    by rewrite Hget, Hz, (plain_normalize _ (plain_decimal z)).
  - intros Hz. by rewrite Hget, Hz.
Qed.

Lemma maxAge_header_witness :
  ∃ h',
    (cors (sampleRequest "OPTIONS" "https://vercel.com") 1%positive
       (Some 3%positive) (sampleStore ∅ (withMaxAge (Number.ofZ 0)))).2
      !! 2%positive = Some (CHeaders h')
    ∧ Headers.get h' "Access-Control-Max-Age" = Some "0".
Proof.
  destruct (maxAge_header
              (sampleRequest "OPTIONS" "https://vercel.com") 1%positive
              (Some 3%positive) (sampleStore ∅ (withMaxAge (Number.ofZ 0)))
              sampleResponse ∅ (withMaxAge (Number.ofZ 0))
              {["access-control-allow-origin" := ["*"]]})
    as (h' & Hh & _ & _ & _ & Hzero);
    [reflexivity|reflexivity|reflexivity|reflexivity|reflexivity|reflexivity|].
  exists h'. split; [exact Hh|]. apply Hzero. reflexivity.
Defined.

(** C8 as stated fails: on an OPTIONS request for which origin resolution
    produced headers, with maxAge 0 and an exposedHeaders that holds a line
    feed, cors rejects with a TypeError before it reaches maxAge and
    Access-Control-Max-Age is not set; and for the number 10^21 the header
    reads 1e+21, which is not the number written out in decimal. *)
Lemma maxAge_header_counterexample :
  originHeadersFromReq (Request.mk "OPTIONS" ∅)
    (originOr
       (spread defaultOptions
          (optionsOf Omitted Omitted Omitted (Value (Str twoLines)) Omitted
             (Value (Number.ofZ 0)))))
  = Ok (Some {["access-control-allow-origin" := ["*"]]})
  ∧ (∃ σ' h',
       cors (Request.mk "OPTIONS" ∅) 1%positive (Some 3%positive)
         (sampleStore ∅
            (optionsOf Omitted Omitted Omitted (Value (Str twoLines)) Omitted
               (Value (Number.ofZ 0))))
       = (Throw TypeError, σ')
       ∧ σ' !! 2%positive = Some (CHeaders h')
       ∧ Headers.get h' "Access-Control-Max-Age" = None)
  ∧ (∃ ret σ' h',
       cors (Request.mk "OPTIONS" ∅) 1%positive (Some 3%positive)
         (sampleStore ∅ (withMaxAge Number.sextillion))
       = (Ok ret, σ')
       ∧ σ' !! 2%positive = Some (CHeaders h')
       ∧ Headers.get h' "Access-Control-Max-Age" = Some "1e+21").
Proof.
  split; [reflexivity|]. split.
  - eexists _, _. split; [vm_compute; reflexivity|].
    split; [vm_compute; reflexivity|]. vm_compute. reflexivity.
  - eexists _, _, _. split; [vm_compute; reflexivity|].
    split; [vm_compute; reflexivity|]. vm_compute. reflexivity.
Qed.

(** C10, amended: on a request whose method is not OPTIONS, cors returns
    the response it was given unless it rejects: with what origin
    resolution threw (the error of the origin function, or the TypeError
    of a configured origin string that is no header value), or with a
    TypeError when exposedHeaders is no header value.  Either way it
    leaves the status, body and collection address of the response alone
    and makes no response; in the collection only
    Access-Control-Allow-Origin, Vary, Access-Control-Allow-Credentials and
    Access-Control-Expose-Headers can differ from before, so
    Access-Control-Allow-Methods, Access-Control-Allow-Headers,
    Access-Control-Max-Age and Content-Length read as before; without
    origin headers the collection is the same. *)
Theorem non_preflight_frame req res options σ r h o :
  optionsAt σ options o →
  σ !! res = Some (CResponse r) →
  σ !! Response.headers r = Some (CHeaders h) →
  Request.method req ≠ "OPTIONS" →
  ∃ out σ' h',
    cors req res options σ = (out, σ')
    ∧ match originHeadersFromReq req (originOr (spread defaultOptions o)) with
      | Throw e => out = Throw e ∧ h' = h
      | Ok None => out = Ok res ∧ h' = h
      | Ok (Some _) =>
          out = if acceptedIf (exposedValue (spread defaultOptions o))
                then Ok res else Throw TypeError
      end
    ∧ σ' !! res = Some (CResponse r)
    ∧ σ' !! Response.headers r = Some (CHeaders h')
    ∧ (∀ l x, σ' !! l = Some (CResponse x) → σ !! l = Some (CResponse x))
    ∧ (∀ k, k ≠ "access-control-allow-origin" → k ≠ "vary" →
            k ≠ "access-control-allow-credentials" →
            k ≠ "access-control-expose-headers" →
            h' !! k = h !! k)
    ∧ Headers.get h' "Access-Control-Allow-Methods"
      = Headers.get h "Access-Control-Allow-Methods"
    ∧ Headers.get h' "Access-Control-Allow-Headers"
      = Headers.get h "Access-Control-Allow-Headers"
    ∧ Headers.get h' "Access-Control-Max-Age"
      = Headers.get h "Access-Control-Max-Age"
    ∧ Headers.get h' "Content-Length" = Headers.get h "Content-Length".
Proof.
  intros Ho Hr Hh Hm.
  assert (Hp : isPreflight req = false) by (by apply String.eqb_neq).
  set (opts := spread defaultOptions o).
  set (σ1 := <[fresh (dom σ) := CObject opts]> σ).
  assert (Hw1 : fresh (dom σ) ≠ res) by (by eapply fresh_ne).
  assert (Hw2 : fresh (dom σ) ≠ Response.headers r) by (by eapply fresh_ne).
  assert (Hne : res ≠ Response.headers r) by congruence.
  assert (H1r : σ1 !! res = Some (CResponse r)).
  { unfold σ1. by rewrite lookup_insert_ne. }
  assert (H1h : σ1 !! Response.headers r = Some (CHeaders h)).
  { unfold σ1. by rewrite lookup_insert_ne. }
  assert (H1new : ∀ l x, σ1 !! l = Some (CResponse x) →
                         σ !! l = Some (CResponse x)).
  { intros l x Hl. unfold σ1 in Hl.
    destruct (decide (l = fresh (dom σ))) as [->|?].
    - by rewrite lookup_insert_eq in Hl.
    - by rewrite lookup_insert_ne in Hl. }
  destruct (originHeadersFromReq req (originOr opts)) as [[oh|]|e]
    eqn:Horigin.
  - rewrite (cors_after_origin _ _ _ _ _ _ _ _ Ho Hr Hh Horigin). cbv zeta.
    fold opts. fold σ1.
    destruct (cors_headers _ _ _ _ _ _ _ _ Ho Hr Hh Horigin)
      as (value & h' & _ & _ & Hoh & _ & Hfinal & Hk).
    destruct (cors_final _ _ _ _ _ _ _ _ Ho Hr Hh Horigin) as [_ Hfinal'].
    rewrite Hfinal in Hfinal'. injection Hfinal' as Heq. fold opts in Heq.
    rewrite <- Heq.
    assert (Hother : ∀ k, k ≠ "access-control-allow-origin" → k ≠ "vary" →
              k ≠ "access-control-allow-credentials" →
              k ≠ "access-control-expose-headers" →
              h' !! k = h !! k).
    { intros k H1 H2 H3 H4. rewrite Hk, origin_other by done.
      fold opts. rewrite laterWrites_other by done.
      apply after_never_written. by apply commonWrites_untouched. }
    assert (Hclose : closes req opts = false) by (unfold closes; by rewrite Hp).
    assert (Hacc : headersAccepted req opts = acceptedIf (exposedValue opts)).
    { unfold headersAccepted. rewrite Hp. apply andb_true_r. }
    rewrite Hclose, Hacc.
    exists (if acceptedIf (exposedValue opts) then Ok res else Throw TypeError),
      (<[Response.headers r := CHeaders h']> σ1), h'.
    split; [by destruct (acceptedIf (exposedValue opts))|].
    split; [done|].
    split; [by rewrite lookup_insert_ne|].
    split; [by rewrite lookup_insert_eq|].
    split.
    { intros l x Hl. apply H1new.
      destruct (decide (l = Response.headers r)) as [->|?].
      - by rewrite lookup_insert_eq in Hl.
      - by rewrite lookup_insert_ne in Hl. }
    split; [exact Hother|].
    unfold Headers.get.
    change (lower "Access-Control-Allow-Methods")
      with "access-control-allow-methods".
    change (lower "Access-Control-Allow-Headers")
      with "access-control-allow-headers".
    change (lower "Access-Control-Max-Age") with "access-control-max-age".
    change (lower "Content-Length") with "content-length".
    by rewrite !Hother.
  - rewrite (cors_run _ _ _ _ _ _ _ Ho Hr Hh). unfold corsOutcome.
    fold opts. rewrite Horigin. by eexists _, _, h.
  - rewrite (cors_run _ _ _ _ _ _ _ Ho Hr Hh). unfold corsOutcome.
    fold opts. rewrite Horigin. by eexists _, _, h.
Qed.

Lemma non_preflight_frame_witness :
  ∃ σ' h',
    cors (sampleRequest "GET" "https://vercel.com") 1%positive None
      (sampleStore {["content-type" := ["application/json"]]} noOptions)
    = (Ok 1%positive, σ')
    ∧ σ' !! 1%positive = Some (CResponse sampleResponse)
    ∧ σ' !! 2%positive = Some (CHeaders h')
    ∧ Headers.get h' "Content-Type" = Some "application/json"
    ∧ Headers.get h' "Content-Length" = None.
Proof.
  destruct (non_preflight_frame
              (sampleRequest "GET" "https://vercel.com") 1%positive None
              (sampleStore {["content-type" := ["application/json"]]} noOptions)
              sampleResponse {["content-type" := ["application/json"]]}
              noOptions)
    as (out & σ' & h' & Hrun & Hout & Hres & Hh & _ & Hother & _ & _ & _ & Hlen);
    [reflexivity|reflexivity|reflexivity|discriminate|].
  vm_compute in Hout. subst out.
  exists σ', h'. split; [exact Hrun|]. split; [exact Hres|].
  split; [exact Hh|]. split.
  - unfold Headers.get. change (lower "Content-Type") with "content-type".
    rewrite Hother; [reflexivity|discriminate..].
  - rewrite Hlen. reflexivity.
Defined.

(** C10 as stated fails: on a GET request for which origin resolution
    produced headers, with an exposedHeaders that holds a line feed, cors
    does not return the response it was given: it rejects with a
    TypeError. *)
Lemma non_preflight_frame_counterexample :
  originHeadersFromReq (sampleRequest "GET" "https://vercel.com")
    (originOr
       (spread defaultOptions
          (optionsOf Omitted Omitted Omitted (Value (Str twoLines)) Omitted
             Omitted)))
  = Ok (Some {["access-control-allow-origin" := ["*"]]})
  ∧ ∃ σ',
      cors (sampleRequest "GET" "https://vercel.com") 1%positive
        (Some 3%positive)
        (sampleStore ∅
           (optionsOf Omitted Omitted Omitted (Value (Str twoLines)) Omitted
              Omitted))
      = (Throw TypeError, σ').
Proof.
  split; [reflexivity|]. eexists. vm_compute. reflexivity.
Qed.

End maxAge_and_frames.

(** ** Vary, the allowed headers and the merge policy *)

Section vary_and_merging.
Implicit Types (σ : heap) (h oh : HeaderMap) (o : CorsOptions) (k : string).

Lemma read_allowedHeaders_spread o :
  read (allowedHeaders (spread defaultOptions o)) = read (allowedHeaders o).
Proof. by destruct o as [? ? [| |?] ? ? ? ? ?]. Qed.

Lemma reflects_read (a : field StringOrArray) :
  reflects (read a) = match a with Value _ => false | _ => true end.
Proof. destruct a as [| |[s|l]]; try done. unfold reflects. simpl.
  by destruct (nonempty s). Qed.

(** What a call appends under Vary after the origin headers. *)
Lemma cors_vary req res options σ r h o oh :
  optionsAt σ options o →
  σ !! res = Some (CResponse r) →
  σ !! Response.headers r = Some (CHeaders h) →
  originHeadersFromReq req (originOr (spread defaultOptions o)) = Ok (Some oh) →
  ∃ value h' extra,
    resolvesTo req (originOr (spread defaultOptions o)) value
    ∧ truthy value = true
    ∧ getOriginHeaders (reqOriginOf req) value = Ok oh
    ∧ (cors req res options σ).2 !! Response.headers r = Some (CHeaders h')
    ∧ (extra = [] ∨ extra = ["Access-Control-Request-Headers"])
    ∧ (isPreflight req = false → extra = [])
    ∧ (headersAccepted req (spread defaultOptions o) = true →
       extra = if isPreflight req then
                 match allowedHeaders o with
                 | Value _ => []
                 | _ => ["Access-Control-Request-Headers"]
                 end
               else [])
    ∧ h' !! "vary"
      = match (if isWildcard value then [] else ["Origin"]) ++ extra with
        | [] => h !! "vary"
        | added => Some (default [] (h !! "vary") ++ added)
        end.
Proof.
  intros Ho Hr Hh Horigin.
  destruct (cors_headers _ _ _ _ _ _ _ _ Ho Hr Hh Horigin)
    as (value & h' & Hvalue & Ht & Hoh & _ & Hfinal & Hk).
  set (opts := spread defaultOptions o) in *.
  set (reached :=
         isPreflight req && reflects (read (allowedHeaders opts))
         && acceptedIf (exposedValue opts) && acceptedIf (methodsValue opts)
         && acceptedIf (allowedValue req (read (allowedHeaders opts)))).
  exists value, h',
    (if reached then ["Access-Control-Request-Headers"] else []).
  do 4 (split; [done|]).
  split; [destruct reached; eauto|].
  split; [intros Hp; unfold reached; by rewrite Hp|]. split.
  - intros Hacc. unfold reached.
    destruct (isPreflight req) eqn:Hp; [|done].
    destruct (headersAccepted_preflight _ _ Hp Hacc) as (-> & -> & -> & _).
    unfold opts. rewrite read_allowedHeaders_spread, reflects_read.
    by destruct (allowedHeaders o).
  - rewrite Hk, later_vary, origin_vary. fold reached.
    destruct (isWildcard value), reached; simpl; try done.
    by rewrite <- app_assoc.
Qed.




End vary_and_merging.

(** ** Allowed headers, from the function to the call *)

Section allowed_headers_call.
Implicit Types (σ : heap) (h oh ah : HeaderMap) (o : CorsOptions) (k : string).

(** What [getAllowedHeaders] returns. *)
Lemma getAllowedHeaders_cases req (a : option StringOrArray) :
  getAllowedHeaders req a
  = let base : HeaderMap :=
      if reflects a then {["vary" := ["Access-Control-Request-Headers"]]}
      else ∅ in
    match allowedValue req a with
    | Some s =>
        if accepted s
        then Ok (<["access-control-allow-headers" := [normalize s]]> base)
        else Throw TypeError
    | None => Ok base
    end.
Proof.
  unfold getAllowedHeaders, allowedValue. fold (reflects a).
  destruct (reflects a); simpl.
  - destruct (Headers.get _ _) as [s|]; simpl; [|done].
    destruct (nonempty s); simpl; [|done].
    destruct (accepted s) eqn:Hacc.
    + by rewrite set_accepted.
    + by rewrite set_rejected.
  - destruct (joined a) as [s|]; simpl; [|done].
    destruct (nonempty s); simpl; [|done].
    destruct (accepted s) eqn:Hacc.
    + by rewrite set_accepted.
    + by rewrite set_rejected.
Qed.

Lemma getAllowedHeaders_get req (a : option StringOrArray) ah :
  getAllowedHeaders req a = Ok ah →
  Headers.get ah "Access-Control-Allow-Headers"
  = normalize <$> allowedValue req a
  ∧ ah !! "vary" = if reflects a then Some ["Access-Control-Request-Headers"]
                   else None.
Proof.
  rewrite getAllowedHeaders_cases. cbv zeta. unfold Headers.get.
  change (lower "Access-Control-Allow-Headers")
    with "access-control-allow-headers".
  destruct (allowedValue req a) as [s|].
  - destruct (accepted s); [|done]. intros [= <-].
    rewrite lookup_insert_eq, lookup_insert_ne by done.
    by destruct (reflects a).
  - intros [= <-]. by destruct (reflects a).
Qed.

Lemma getAllowedHeaders_returns req (a : option StringOrArray) :
  (∃ ah, getAllowedHeaders req a = Ok ah)
  ↔ acceptedIf (allowedValue req a) = true.
Proof.
  rewrite getAllowedHeaders_cases. cbv zeta.
  destruct (allowedValue req a) as [s|]; simpl; [|split; by eauto].
  destruct (accepted s); split; eauto; try done. by intros [ah ?].
Qed.



(** C7: when cors merges computed headers into the collection of the
    response, whatever else the call does and however it ends, Vary is
    appended: the values the collection had under Vary stay in front, in
    order, and the value the origin headers carry comes right after them,
    followed at most by "Access-Control-Request-Headers"; read back, the
    values are joined by a comma and a space, so Foo with Origin appended
    reads "Foo, Origin".  Every other header is set: the
    Access-Control-Allow-Origin of the origin headers replaces whatever
    the collection had under that name.  On a preflight request that gets
    as far as the allowed headers, it is the same for them:
    Access-Control-Allow-Headers is replaced by the computed value, and
    the value computed for Vary is appended last. *)
Theorem merge_policy req res options σ r h o oh :
  optionsAt σ options o →
  σ !! res = Some (CResponse r) →
  σ !! Response.headers r = Some (CHeaders h) →
  originHeadersFromReq req (originOr (spread defaultOptions o)) = Ok (Some oh) →
  ∃ h',
    (cors req res options σ).2 !! Response.headers r = Some (CHeaders h')
    ∧ (∀ v, Headers.get oh "Vary" = Some v →
         ∃ more,
           h' !! "vary" = Some (default [] (h !! "vary") ++ v :: more)
           ∧ (more = [] ∨ more = ["Access-Control-Request-Headers"]))
    ∧ (∀ v old, Headers.get oh "Vary" = Some v →
         h !! "vary" = Some old →
         Request.method req ≠ "OPTIONS" →
         Headers.get h' "Vary" = Some (join ", " (old ++ [v])))
    ∧ (Headers.get oh "Vary" = None →
       Request.method req ≠ "OPTIONS" → h' !! "vary" = h !! "vary")
    ∧ (∀ v, Headers.get oh "Access-Control-Allow-Origin" = Some v →
         Headers.get h' "Access-Control-Allow-Origin" = Some v)
    ∧ (Headers.get oh "Access-Control-Allow-Origin" = None →
       h' !! "access-control-allow-origin"
       = h !! "access-control-allow-origin")
    ∧ (Request.method req = "OPTIONS" →
       headersAccepted req (spread defaultOptions o) = true →
       ∃ ah,
         getAllowedHeaders req (read (allowedHeaders o)) = Ok ah
         ∧ (∀ v, Headers.get ah "Access-Control-Allow-Headers" = Some v →
              Headers.get h' "Access-Control-Allow-Headers" = Some v)
         ∧ (Headers.get ah "Access-Control-Allow-Headers" = None →
            h' !! "access-control-allow-headers"
            = h !! "access-control-allow-headers")
         ∧ (∀ v, Headers.get ah "Vary" = Some v →
              ∃ front,
                h' !! "vary" = Some (default [] (h !! "vary") ++ front ++ [v]))).
Proof.
  intros Ho Hr Hh Horigin.
  destruct (cors_vary _ _ _ _ _ _ _ _ Ho Hr Hh Horigin)
    as (value & h' & extra & _ & _ & Hoh & Hfinal & Hextra & Hshort & Hexact
        & Hv).
  exists h'. split; [done|].
  pose proof (getOriginHeaders_vary _ _ _ Hoh) as Hvary.
  pose proof (getOriginHeaders_allowOrigin _ _ _ Hoh) as Hallow.
  destruct (cors_headers _ _ _ _ _ _ _ _ Ho Hr Hh Horigin)
    as (value' & h'' & _ & _ & Hoh' & _ & Hfinal' & Hk).
  rewrite Hfinal in Hfinal'. injection Hfinal' as <-.
  assert (Hnot : Request.method req ≠ "OPTIONS" → extra = []).
  { intros Hm%String.eqb_neq. by apply Hshort. }
  unfold Headers.get in *.
  change (lower "Vary") with "vary" in *.
  change (lower "Access-Control-Allow-Origin")
    with "access-control-allow-origin" in *.
  change (lower "Access-Control-Allow-Headers")
    with "access-control-allow-headers" in *.
  split.
  { intros v. rewrite Hvary.
    destruct (isWildcard value); [done|]. intros [= <-].
    exists extra. by rewrite Hv. }
  split.
  { intros v old. rewrite Hvary.
    destruct (isWildcard value); [done|]. intros [= <-] Hold Hm.
    by rewrite Hv, (Hnot Hm), Hold. }
  split.
  { rewrite Hvary. destruct (isWildcard value); [|done]. intros _ Hm.
    by rewrite Hv, (Hnot Hm). }
  assert (Hacao : h' !! "access-control-allow-origin"
                  = match oh !! "access-control-allow-origin" with
                    | Some v => Some v
                    | None => h !! "access-control-allow-origin"
                    end).
  { rewrite Hk, later_other, origin_allowOrigin, Hallow.
    - pose proof (getOriginHeaders_allowOrigin _ _ _ Hoh') as Hallow'.
      rewrite Hallow in Hallow'.
      destruct value as [b|s|re|l|], value' as [b'|s'|re'|l'|];
        simpl in *; try done;
        repeat match goal with
               | H : context [if ?c then _ else _] |- _ => destruct c
               | |- context [if ?c then _ else _] => destruct c
               end; try done; by simplify_eq.
    - apply (bool_decide_eq_false_1 (_ ∈ _)). reflexivity. }
  split.
  { intros v Hv'. rewrite Hacao.
    destruct (oh !! "access-control-allow-origin"); [done|discriminate Hv']. }
  split.
  { intros Hnone. rewrite Hacao.
    by destruct (oh !! "access-control-allow-origin"). }
  intros Hm%isPreflight_true Hacc.
  destruct (headersAccepted_preflight _ _ Hm Hacc) as (He & Hme & Ha & Hage).
  rewrite read_allowedHeaders_spread in Ha.
  destruct (proj2 (getAllowedHeaders_returns req (read (allowedHeaders o))) Ha)
    as [ah Hah].
  exists ah. split; [done|].
  destruct (getAllowedHeaders_get _ _ _ Hah) as [Hget Hvary_ah].
  unfold Headers.get in Hget.
  change (lower "Access-Control-Allow-Headers")
    with "access-control-allow-headers" in Hget.
  assert (Hacah : h' !! "access-control-allow-headers"
                  = match allowedValue req (read (allowedHeaders o)) with
                    | Some s => Some [normalize s]
                    | None => h !! "access-control-allow-headers"
                    end).
  { rewrite Hk, later_allowed, origin_other by done.
    rewrite Hm, He, Hme, read_allowedHeaders_spread. cbn [andb].
    destruct (allowedValue req (read (allowedHeaders o))) as [s|]; [|done].
    simpl in Ha. by rewrite Ha. }
  split.
  { intros v. rewrite Hget, Hacah.
    by destruct (allowedValue req (read (allowedHeaders o))). }
  split.
  { intros Hnone. rewrite Hget in Hnone. rewrite Hacah.
    by destruct (allowedValue req (read (allowedHeaders o))). }
  intros v. rewrite Hvary_ah.
  destruct (reflects (read (allowedHeaders o))) eqn:Hreflects; [|done].
  intros [= <-]. rewrite Hv, (Hexact Hacc), Hm.
  rewrite reflects_read in Hreflects.
  destruct (allowedHeaders o); try done.
  - exists (if isWildcard value then [] else ["Origin"]).
    by destruct (isWildcard value).
  - exists (if isWildcard value then [] else ["Origin"]).
    by destruct (isWildcard value).
Qed.

Lemma merge_policy_witness :
  ∃ h',
    (cors (Request.mk "GET" ∅) 1%positive (Some 3%positive)
       (sampleStore {["vary" := ["Foo"];
                      "access-control-allow-origin" := ["https://old.example"]]}
          (withOrigin (Static (OStr "https://vercel.com"))))).2
      !! 2%positive = Some (CHeaders h')
    ∧ Headers.get h' "Vary" = Some "Foo, Origin"
    ∧ Headers.get h' "Access-Control-Allow-Origin" = Some "https://vercel.com".
Proof.
  destruct (merge_policy
              (Request.mk "GET" ∅) 1%positive (Some 3%positive)
              (sampleStore
                 {["vary" := ["Foo"];
                   "access-control-allow-origin" := ["https://old.example"]]}
                 (withOrigin (Static (OStr "https://vercel.com"))))
              sampleResponse
              {["vary" := ["Foo"];
                "access-control-allow-origin" := ["https://old.example"]]}
              (withOrigin (Static (OStr "https://vercel.com")))
              {["access-control-allow-origin" := ["https://vercel.com"];
                "vary" := ["Origin"]]})
    as (h' & Hh & _ & Hvary & _ & Hset & _);
    [reflexivity|reflexivity|reflexivity|reflexivity|].
  exists h'. split; [exact Hh|]. split.
  - apply (Hvary "Origin" ["Foo"]); [reflexivity|reflexivity|discriminate].
  - apply Hset. reflexivity.
Defined.

End allowed_headers_call.

(** ** The headers of the response, one by one *)

Section header_by_header.
Implicit Types (σ : heap) (h oh : HeaderMap) (o : CorsOptions) (k : string).

Lemma read_credentials_spread o :
  default false (read (credentials (spread defaultOptions o)))
  = match credentials o with Value true => true | _ => false end.
Proof. by destruct o as [? ? ? ? [| |[]] ? ? ?]. Qed.



Lemma closes_spread req o :
  closes req (spread defaultOptions o) = isPreflight req && negb (continues o).
Proof. unfold closes. by rewrite continues_spread. Qed.

(** X2: whenever origin headers are produced, on any method and however
    the call ends, Access-Control-Allow-Credentials reads "true" in the
    collection of the given response if the credentials option is true;
    with the option false, undefined or left out the header is not written
    and reads as before the call, so cors never writes "false". *)
Theorem credentials_header req res options σ r h o oh :
  optionsAt σ options o →
  σ !! res = Some (CResponse r) →
  σ !! Response.headers r = Some (CHeaders h) →
  originHeadersFromReq req (originOr (spread defaultOptions o)) = Ok (Some oh) →
  ∃ h',
    (cors req res options σ).2 !! Response.headers r = Some (CHeaders h')
    ∧ Headers.get h' "Access-Control-Allow-Credentials"
      = match credentials o with
        | Value true => Some "true"
        | _ => Headers.get h "Access-Control-Allow-Credentials"
        end.
Proof.
  intros Ho Hr Hh Horigin.
  destruct (cors_headers _ _ _ _ _ _ _ _ Ho Hr Hh Horigin)
    as (value & h' & _ & _ & Hoh & _ & Hfinal & Hk).
  exists h'. split; [done|]. rewrite !get_lookup.
  change (lower "Access-Control-Allow-Credentials")
    with "access-control-allow-credentials".
  rewrite Hk, later_credentials, origin_other by done.
  rewrite read_credentials_spread.
  by destruct (credentials o) as [| |[]].
Qed.

Lemma credentials_header_witness :
  ∃ h',
    (cors (sampleRequest "GET" "https://vercel.com") 1%positive
       (Some 3%positive)
       (sampleStore ∅
          (optionsOf Omitted Omitted Omitted Omitted (Value true) Omitted))).2
      !! 2%positive = Some (CHeaders h')
    ∧ Headers.get h' "Access-Control-Allow-Credentials" = Some "true".
Proof.
  apply (credentials_header
           (sampleRequest "GET" "https://vercel.com") 1%positive
           (Some 3%positive)
           (sampleStore ∅
              (optionsOf Omitted Omitted Omitted Omitted (Value true) Omitted))
           sampleResponse ∅
           (optionsOf Omitted Omitted Omitted Omitted (Value true) Omitted)
           {["access-control-allow-origin" := ["*"]]});
    reflexivity.
Defined.





(** X5: whenever origin headers are produced, Content-Length is written
    only at the end of an OPTIONS request without preflightContinue, once
    the platform has accepted every header value the options supply: it
    then reads "0" in the collection of the given response, whose status
    and body stay as they were, also when the status is then refused and
    cors rejects with a RangeError; in every other case it reads as before
    the call. *)
Theorem content_length_header req res options σ r h o oh :
  optionsAt σ options o →
  σ !! res = Some (CResponse r) →
  σ !! Response.headers r = Some (CHeaders h) →
  originHeadersFromReq req (originOr (spread defaultOptions o)) = Ok (Some oh) →
  let written :=
    isPreflight req && negb (continues o)
    && headersAccepted req (spread defaultOptions o) in
  ∃ h',
    (cors req res options σ).2 !! res = Some (CResponse r)
    ∧ (cors req res options σ).2 !! Response.headers r = Some (CHeaders h')
    ∧ Headers.get h' "Content-Length"
      = (if written then Some "0" else Headers.get h "Content-Length")
    ∧ (written = true →
       Response.inRange (statusFor (spread defaultOptions o)) = false →
       (cors req res options σ).1 = Throw RangeError).
Proof.
  intros Ho Hr Hh Horigin written.
  destruct (cors_headers _ _ _ _ _ _ _ _ Ho Hr Hh Horigin)
    as (value & h' & _ & _ & Hoh & Hres & Hfinal & Hk).
  exists h'. do 2 (split; [done|]). split.
  - rewrite !get_lookup. change (lower "Content-Length") with "content-length".
    rewrite Hk, later_contentLength, origin_other by done.
    rewrite closes_spread. fold written. by destruct written.
  - unfold written. intros [Hclose Hacc]%andb_prop Hrange.
    rewrite <- closes_spread in Hclose.
    pose proof (cors_ends _ _ _ _ _ _ _ _ Ho Hr Hh Horigin) as Hends.
    cbv zeta in Hends. rewrite Hacc, Hclose in Hends.
    destruct (cors req res options σ).1 as [ret|e].
    + destruct Hends as (_ & _ & Hin & _). by rewrite Hin in Hrange.
    + by destruct Hends as (_ & -> & _).
Qed.

Lemma content_length_header_witness :
  ∃ h',
    (cors (sampleRequest "OPTIONS" "https://vercel.com") 1%positive
       (Some 3%positive) (sampleStore ∅ (withStatus (Number.ofZ 99)))).2
      !! 2%positive = Some (CHeaders h')
    ∧ Headers.get h' "Content-Length" = Some "0"
    ∧ (cors (sampleRequest "OPTIONS" "https://vercel.com") 1%positive
         (Some 3%positive) (sampleStore ∅ (withStatus (Number.ofZ 99)))).1
      = Throw RangeError.
Proof.
  destruct (content_length_header
              (sampleRequest "OPTIONS" "https://vercel.com") 1%positive
              (Some 3%positive) (sampleStore ∅ (withStatus (Number.ofZ 99)))
              sampleResponse ∅ (withStatus (Number.ofZ 99))
              {["access-control-allow-origin" := ["*"]]})
    as (h' & _ & Hh & Hget & Hthrow);
    [reflexivity|reflexivity|reflexivity|reflexivity|].
  exists h'. split; [exact Hh|]. split.
  - rewrite Hget. reflexivity.
  - apply Hthrow; reflexivity.
Defined.

(** X6: when the origin resolves to a truthy value for which
    getOriginHeaders returns, Access-Control-Allow-Origin reads, however
    the call ends afterwards: that value if it is a string, whatever the
    request's Origin; for any other value, the request's Origin when the
    request has a non-empty one and the value allows it; and otherwise it
    is not written, so a header the response already had stays.  What is
    read is the value as the platform stores it, without the whitespace
    around it. *)
Theorem allow_origin_header req res options σ r h o value oh :
  optionsAt σ options o →
  σ !! res = Some (CResponse r) →
  σ !! Response.headers r = Some (CHeaders h) →
  resolvesTo req (originOr (spread defaultOptions o)) value →
  truthy value = true →
  getOriginHeaders (reqOriginOf req) value = Ok oh →
  ∃ h',
    (cors req res options σ).2 !! Response.headers r = Some (CHeaders h')
    ∧ Headers.get h' "Access-Control-Allow-Origin"
      = match value with
        | OStr s => Some (normalize s)
        | _ =>
            if isOriginAllowed (default "" (reqOriginOf req)) value
               && present (reqOriginOf req)
            then normalize <$> reqOriginOf req
            else Headers.get h "Access-Control-Allow-Origin"
        end.
Proof.
  intros Ho Hr Hh Hres Htruthy Hoh.
  assert (Horigin : originHeadersFromReq req (originOr (spread defaultOptions o))
                    = Ok (Some oh)).
  { apply originHeadersFromReq_some. by exists value. }
  destruct (cors_final _ _ _ _ _ _ _ _ Ho Hr Hh Horigin) as [_ Hfinal].
  eexists. split; [exact Hfinal|]. rewrite !get_lookup.
  change (lower "Access-Control-Allow-Origin")
    with "access-control-allow-origin".
  rewrite (finalHeaders_later _ _ _ _ _ _ _ Hoh).
  rewrite later_other, origin_allowOrigin
    by (apply (bool_decide_eq_false_1 (_ ∈ _)); reflexivity).
  assert (Hother :
    join ", " <$>
      (if isOriginAllowed (default "" (reqOriginOf req)) value
          && present (reqOriginOf req)
       then Some [normalize (default "" (reqOriginOf req))]
       else h !! "access-control-allow-origin")
    = if isOriginAllowed (default "" (reqOriginOf req)) value
         && present (reqOriginOf req)
      then normalize <$> reqOriginOf req
      else join ", " <$> h !! "access-control-allow-origin").
  { destruct (isOriginAllowed _ value); [|done].
    destruct (reqOriginOf req) as [x|]; [|done]. simpl.
    by destruct (nonempty x). }
  destruct value as [b|s|re|l|]; try exact Hother. done.
Qed.

Lemma allow_origin_header_witness :
  ∃ h',
    (cors (sampleRequest "GET" "https://vercel.com") 1%positive
       (Some 3%positive)
       (sampleStore {["access-control-allow-origin" := ["https://old.example"]]}
          (withOrigin (Static (ORegExp (endsWith "vercel.com")))))).2
      !! 2%positive = Some (CHeaders h')
    ∧ Headers.get h' "Access-Control-Allow-Origin" = Some "https://vercel.com".
Proof.
  destruct (allow_origin_header
              (sampleRequest "GET" "https://vercel.com") 1%positive
              (Some 3%positive)
              (sampleStore
                 {["access-control-allow-origin" := ["https://old.example"]]}
                 (withOrigin (Static (ORegExp (endsWith "vercel.com")))))
              sampleResponse
              {["access-control-allow-origin" := ["https://old.example"]]}
              (withOrigin (Static (ORegExp (endsWith "vercel.com"))))
              (ORegExp (endsWith "vercel.com"))
              {["access-control-allow-origin" := ["https://vercel.com"];
                "vary" := ["Origin"]]})
    as (h' & Hh & Hget);
    [reflexivity|reflexivity|reflexivity|reflexivity|reflexivity|reflexivity|].
  exists h'. split; [exact Hh|]. rewrite Hget. reflexivity.
Defined.

End header_by_header.

(** ** How a call can fail *)

Section failures.
Implicit Types (σ : heap) (h oh : HeaderMap) (o : CorsOptions) (k : string).

Lemma optionsAt_keeps σ σ' options o :
  keeps σ σ' → optionsAt σ options o → optionsAt σ' options o.
Proof.
  intros Hk. destruct options as [l0|]; [|done]. simpl. intros Hl.
  by apply Hk.
Qed.

(** What a call leaves and how it ends do not depend on the store. *)
Lemma cors_leaves req res options σ r h o :
  optionsAt σ options o →
  σ !! res = Some (CResponse r) →
  σ !! Response.headers r = Some (CHeaders h) →
  (cors req res options σ).2 !! res = Some (CResponse r)
  ∧ (cors req res options σ).2 !! Response.headers r
    = Some (CHeaders (leaves req o h))
  ∧ match ending req o with
    | Some e => (cors req res options σ).1 = Throw e
    | None => ∃ ret, (cors req res options σ).1 = Ok ret
    end.
Proof.
  intros Ho Hr Hh. unfold leaves, ending. cbv zeta.
  destruct (originHeadersFromReq req (originOr (spread defaultOptions o)))
    as [[oh|]|e] eqn:Horigin.
  - destruct (cors_final _ _ _ _ _ _ _ _ Ho Hr Hh Horigin) as [Hres Hfinal].
    do 2 (split; [done|]).
    pose proof (cors_ends _ _ _ _ _ _ _ _ Ho Hr Hh Horigin) as Hends.
    cbv zeta in Hends.
    destruct (cors req res options σ).1 as [ret|e].
    + destruct Hends as (-> & _ & Hclose). cbn [negb]. cbv iota.
      destruct (closes req (spread defaultOptions o)); cbn [andb];
        [destruct Hclose as [-> _]; cbn [negb]|]; by eauto.
    + destruct Hends as [_ Hends].
      destruct (headersAccepted req (spread defaultOptions o)); simpl.
      * by destruct Hends as (-> & -> & ->).
      * by rewrite Hends.
  - rewrite (cors_run _ _ _ _ _ _ _ Ho Hr Hh). unfold corsOutcome.
    rewrite Horigin. simpl.
    rewrite !lookup_insert_ne by (by eapply fresh_ne). by eauto.
  - rewrite (cors_run _ _ _ _ _ _ _ Ho Hr Hh). unfold corsOutcome.
    rewrite Horigin. simpl.
    by rewrite !lookup_insert_ne by (by eapply fresh_ne).
Qed.

(** X7: with the response and the options in place, cors returns or
    rejects as follows.  When origin resolution throws, cors rejects with
    the same error before anything is written, and every object the store
    held is as it was; origin resolution throws what the origin function
    rejects with, or the TypeError of the platform for an
    Access-Control-Allow-Origin value it does not accept.  When the origin
    resolves to a falsy value cors returns the given response.  When origin
    headers are produced, cors rejects with a TypeError if the platform
    does not accept a header value the options supply, with a RangeError
    if all are accepted but the call ends with a new response whose status
    is outside 200 to 599, and returns in every other case. *)
Theorem cors_returns_or_rejects req res options σ r h o :
  optionsAt σ options o →
  σ !! res = Some (CResponse r) →
  σ !! Response.headers r = Some (CHeaders h) →
  let opts := spread defaultOptions o in
  match originHeadersFromReq req (originOr opts) with
  | Throw e =>
      (cors req res options σ).1 = Throw e
      ∧ (∀ l, is_Some (σ !! l) → (cors req res options σ).2 !! l = σ !! l)
      ∧ ((∃ f, originOr opts = Fn f ∧ f (reqOriginOf req) req = Throw e)
         ∨ (e = TypeError
            ∧ ∃ value, resolvesTo req (originOr opts) value
                       ∧ truthy value = true
                       ∧ getOriginHeaders (reqOriginOf req) value
                         = Throw TypeError))
  | Ok None => (cors req res options σ).1 = Ok res
  | Ok (Some _) =>
      if negb (headersAccepted req opts)
      then (cors req res options σ).1 = Throw TypeError
      else if closes req opts && negb (Response.inRange (statusFor opts))
           then (cors req res options σ).1 = Throw RangeError
           else ∃ ret, (cors req res options σ).1 = Ok ret
  end.
Proof.
  intros Ho Hr Hh opts.
  destruct (cors_leaves req _ _ _ _ _ _ Ho Hr Hh) as (_ & _ & Hending).
  unfold ending in Hending. cbv zeta in Hending. fold opts in Hending.
  destruct (originHeadersFromReq req (originOr opts)) as [[oh|]|e] eqn:Horigin.
  - destruct (negb (headersAccepted req opts)); [done|].
    by destruct (closes req opts && negb (Response.inRange (statusFor opts))).
  - rewrite (cors_run _ _ _ _ _ _ _ Ho Hr Hh). unfold corsOutcome.
    fold opts. by rewrite Horigin.
  - split; [done|]. split.
    + intros l [c Hl]. rewrite (cors_run _ _ _ _ _ _ _ Ho Hr Hh).
      unfold corsOutcome. fold opts. rewrite Horigin. simpl.
      by rewrite lookup_insert_ne by (by eapply fresh_ne).
    + unfold originHeadersFromReq in Horigin. fold (reqOriginOf req) in Horigin.
      unfold resolvesTo.
      destruct (originOr opts) as [v|f]; simpl in Horigin.
      * right. destruct (truthy v) eqn:Ht; simpl in Horigin; [|done].
        destruct (getOriginHeaders (reqOriginOf req) v) as [oh|e'] eqn:Hoh;
          simpl in Horigin; [done|]. injection Horigin as ->.
        assert (e = TypeError) as ->.
        { revert Hoh. destruct (not_string v) as [Hv|[s ->]].
          - rewrite getOriginHeaders_other by done.
            destruct (_ && _); [destruct (accepted _)|]; congruence.
          - rewrite getOriginHeaders_string.
            destruct (String.eqb s "*"); [done|].
            destruct (accepted s); congruence. }
        split; [done|]. by exists v.
      * destruct (f (reqOriginOf req) req) as [v|e'] eqn:Hf;
          simpl in Horigin; [|injection Horigin as ->; left; by exists f].
        right. destruct (truthy v) eqn:Ht; simpl in Horigin; [|done].
        destruct (getOriginHeaders (reqOriginOf req) v) as [oh|e'] eqn:Hoh;
          simpl in Horigin; [done|]. injection Horigin as ->.
        assert (e = TypeError) as ->.
        { revert Hoh. destruct (not_string v) as [Hv|[s ->]].
          - rewrite getOriginHeaders_other by done.
            destruct (_ && _); [destruct (accepted _)|]; congruence.
          - rewrite getOriginHeaders_string.
            destruct (String.eqb s "*"); [done|].
            destruct (accepted s); congruence. }
        split; [done|]. by exists v.
Qed.

Lemma cors_returns_or_rejects_witness :
  (cors (sampleRequest "GET" "https://vercel.com") 1%positive (Some 3%positive)
     (sampleStore ∅ (withOrigin (Fn rejecting)))).1
  = Throw Rejected
  ∧ (cors (sampleRequest "GET" "https://vercel.com") 1%positive
       (Some 3%positive) (sampleStore ∅ (withOrigin (Fn rejecting)))).2
      !! 2%positive
    = Some (CHeaders ∅).
Proof.
  pose proof (cors_returns_or_rejects
                (sampleRequest "GET" "https://vercel.com") 1%positive
                (Some 3%positive)
                (sampleStore ∅ (withOrigin (Fn rejecting)))
                sampleResponse ∅ (withOrigin (Fn rejecting))
                eq_refl eq_refl eq_refl) as Hcase.
  destruct Hcase as (Hthrow & Hstore & _).
  split; [exact Hthrow|].
  rewrite (Hstore 2%positive); [reflexivity|eexists; reflexivity].
Defined.

End failures.

(** ** Calls that follow one another *)

Section repeated_calls.
Implicit Types (σ : heap) (h oh : HeaderMap) (o : CorsOptions) (k : string).
Implicit Types (ws : list write) (cur : option (list string)).

(** Writes that do not append under [k] either set it or leave it. *)
Lemma after_overrides ws k :
  appendsTo k ws = false →
  ∃ g : option (list string),
    ∀ cur, after ws k cur = match g with Some v => Some v | None => cur end.
Proof.
  induction ws as [|w ws IH]; [by exists None|].
  simpl. intros [Hw Hws]%orb_false_elim.
  destruct (IH Hws) as [g Hg].
  destruct w as [n v|n v]; simpl.
  - destruct (String.eqb (lower n) k).
    + exists (Some (default [normalize v] g)). intros cur. rewrite Hg.
      by destruct g.
    + by exists g.
  - rewrite Hw. by exists g.
Qed.

Lemma after_idempotent ws k cur :
  appendsTo k ws = false → after ws k (after ws k cur) = after ws k cur.
Proof.
  intros [g Hg]%after_overrides. rewrite !Hg. by destruct g.
Qed.

Lemma appendsTo_app k ws1 ws2 :
  appendsTo k (ws1 ++ ws2) = appendsTo k ws1 || appendsTo k ws2.
Proof. apply existsb_app. Qed.

Lemma appendsTo_validPrefix k ws :
  appendsTo k ws = false → appendsTo k (validPrefix ws) = false.
Proof.
  induction ws as [|w ws IH]; [done|]. simpl.
  intros [Hw Hws]%orb_false_elim. destruct (acceptedW w); [|done].
  simpl. by rewrite Hw, IH.
Qed.

Lemma appendsTo_optWrite k name (v : option string) :
  appendsTo k (optWrite name v) = false.
Proof. by destruct v. Qed.

Lemma appendsTo_append k (name v : string) :
  appendsTo k [WAppend name v] = String.eqb (lower name) k.
Proof. unfold appendsTo. simpl. apply orb_false_r. Qed.

Lemma appendsTo_set k (name v : string) ws :
  appendsTo k (WSet name v :: ws) = appendsTo k ws.
Proof. done. Qed.

(** A call appends under Vary only. *)
Lemma appendsTo_corsWrites req opts ro value k :
  k ≠ "vary" →
  appendsTo k (originWrites ro value ++ validPrefix (laterWrites req opts))
  = false.
Proof.
  intros Hk.
  assert (Hvary : String.eqb "vary" k = false).
  { apply String.eqb_neq. congruence. }
  rewrite appendsTo_app. apply orb_false_intro.
  - unfold originWrites. destruct (isWildcard value); [done|].
    assert (Hother :
      appendsTo k
        ((if isOriginAllowed (default "" ro) value && present ro
          then [WSet "access-control-allow-origin"
                  (normalize (default "" ro))]
          else []) ++ [WAppend "vary" "Origin"]) = false).
    { rewrite appendsTo_app, appendsTo_append.
      change (lower "vary") with "vary". rewrite Hvary.
      by destruct (_ && _). }
    destruct value; try exact Hother.
    rewrite appendsTo_set, appendsTo_append.
    change (lower "vary") with "vary". exact Hvary.
  - apply appendsTo_validPrefix.
    unfold laterWrites, commonWrites, preflightWrites, allowedWrites.
    rewrite !appendsTo_app, !appendsTo_optWrite.
    assert (Hreq : ∀ b : bool,
              appendsTo k
                (if b then [WAppend "Vary" "Access-Control-Request-Headers"]
                 else []) = false).
    { intros [|]; [|done]. rewrite appendsTo_append.
      change (lower "Vary") with "vary". exact Hvary. }
    destruct (default false (read (credentials opts))), (isPreflight req),
      (closes req opts); simpl;
      rewrite ?appendsTo_app, ?appendsTo_optWrite, ?Hreq; done.
Qed.

(** X9: with an origin option that is a value without regular expressions,
    truthy, for which getOriginHeaders returns, calling cors a second time
    on the response it was given, with the same request and options,
    leaves every header but Vary as the first call left it, however the
    calls end; under Vary the second call appends once more what the first
    appended ("Origin" unless the origin is "*", then
    "Access-Control-Request-Headers" when a preflight request without
    allowedHeaders gets that far), after the values the first call
    left. *)
Theorem second_call_accumulates_vary req res options σ r h o value oh :
  optionsAt σ options o →
  σ !! res = Some (CResponse r) →
  σ !! Response.headers r = Some (CHeaders h) →
  originOr (spread defaultOptions o) = Static value →
  regexFree value = true →
  truthy value = true →
  getOriginHeaders (reqOriginOf req) value = Ok oh →
  ∃ h1 h2 extra,
    (cors req res options σ).2 !! Response.headers r = Some (CHeaders h1)
    ∧ (cors req res options (cors req res options σ).2).2
        !! Response.headers r = Some (CHeaders h2)
    ∧ (∀ k, k ≠ "vary" → h2 !! k = h1 !! k)
    ∧ (extra = [] ∨ extra = ["Access-Control-Request-Headers"])
    ∧ (headersAccepted req (spread defaultOptions o) = true →
       extra = if isPreflight req then
                 match allowedHeaders o with
                 | Value _ => []
                 | _ => ["Access-Control-Request-Headers"]
                 end
               else [])
    ∧ match (if isWildcard value then [] else ["Origin"]) ++ extra with
      | [] => h1 !! "vary" = h !! "vary" ∧ h2 !! "vary" = h !! "vary"
      | added =>
          h1 !! "vary" = Some (default [] (h !! "vary") ++ added)
          ∧ h2 !! "vary" = Some (default [] (h !! "vary") ++ added ++ added)
      end.
Proof.
  intros Ho Hr Hh Hstatic _ Htruthy Hoh.
  set (opts := spread defaultOptions o) in *.
  assert (Horigin : originHeadersFromReq req (originOr opts) = Ok (Some oh)).
  { apply originHeadersFromReq_some. exists value.
    by rewrite Hstatic. }
  destruct (cors_final _ _ _ _ _ _ _ _ Ho Hr Hh Horigin) as [Hr1 Hh1].
  fold opts in Hh1.
  set (σ1 := (cors req res options σ).2) in *.
  set (h1 := finalHeaders req opts oh h) in *.
  assert (Ho1 : optionsAt σ1 options o).
  { eapply optionsAt_keeps; [|exact Ho]. apply cors_keeping. }
  destruct (cors_final _ _ _ _ _ _ _ _ Ho1 Hr1 Hh1 Horigin) as [_ Hh2].
  fold opts in Hh2.
  set (reached :=
         isPreflight req && reflects (read (allowedHeaders opts))
         && acceptedIf (exposedValue opts) && acceptedIf (methodsValue opts)
         && acceptedIf (allowedValue req (read (allowedHeaders opts)))).
  exists h1, (finalHeaders req opts oh h1),
    (if reached then ["Access-Control-Request-Headers"] else []).
  do 2 (split; [done|]). split.
  { intros k Hk. unfold h1.
    rewrite !(finalHeaders_later _ _ _ _ _ _ _ Hoh).
    assert (Hboth : ∀ cur,
              after (validPrefix (laterWrites req opts)) k
                (after (originWrites (reqOriginOf req) value) k cur)
              = after (originWrites (reqOriginOf req) value
                       ++ validPrefix (laterWrites req opts)) k cur).
    { intros cur. by rewrite after_app. }
    rewrite !Hboth.
    apply after_idempotent. by apply appendsTo_corsWrites. }
  split; [destruct reached; eauto|]. split.
  { intros Hacc. unfold reached.
    destruct (isPreflight req) eqn:Hp; [|done].
    destruct (headersAccepted_preflight _ _ Hp Hacc) as (-> & -> & -> & _).
    unfold opts. rewrite read_allowedHeaders_spread, reflects_read.
    by destruct (allowedHeaders o). }
  assert (Hvary : ∀ c : HeaderMap,
            finalHeaders req opts oh c !! "vary"
            = match (if isWildcard value then [] else ["Origin"])
                    ++ (if reached then ["Access-Control-Request-Headers"]
                        else []) with
              | [] => c !! "vary"
              | added => Some (default [] (c !! "vary") ++ added)
              end).
  { intros c. rewrite (finalHeaders_later _ _ _ _ _ _ _ Hoh).
    rewrite later_vary, origin_vary. fold reached.
    destruct (isWildcard value), reached; simpl; try done.
    by rewrite <- app_assoc. }
  unfold h1. rewrite !Hvary.
  destruct (isWildcard value), reached; simpl; try done;
    by rewrite <- !app_assoc.
Qed.

Lemma second_call_accumulates_vary_witness :
  ∃ h2,
    (cors (sampleRequest "GET" "https://vercel.com") 1%positive
       (Some 3%positive)
       (cors (sampleRequest "GET" "https://vercel.com") 1%positive
          (Some 3%positive)
          (sampleStore ∅ (withOrigin (Static (OBool true))))).2).2
      !! 2%positive = Some (CHeaders h2)
    ∧ h2 !! "vary" = Some ["Origin"; "Origin"].
Proof.
  destruct (second_call_accumulates_vary
              (sampleRequest "GET" "https://vercel.com") 1%positive
              (Some 3%positive)
              (sampleStore ∅ (withOrigin (Static (OBool true))))
              sampleResponse ∅ (withOrigin (Static (OBool true))) (OBool true)
              {["access-control-allow-origin" := ["https://vercel.com"];
                "vary" := ["Origin"]]})
    as (h1 & h2 & extra & _ & Hh2 & _ & _ & Hextra & Hvary);
    [reflexivity|reflexivity|reflexivity|reflexivity|reflexivity|reflexivity
    |reflexivity|].
  exists h2. split; [exact Hh2|].
  rewrite Hextra in Hvary by reflexivity. apply Hvary.
Defined.

(** X10: a handler made by initCors with an origin option that is a value
    without regular expressions can be used over and over: after any call
    of it on one response, whatever its outcome, a call on another
    response with a collection of its own leaves in that collection the
    very headers it would have left had the first call not happened, and
    returns or rejects, with the same error, as it would have. *)
Theorem initCors_calls_independent options req1 res1 req2 res2 σ r2 h2 o value :
  optionsAt σ options o →
  σ !! res2 = Some (CResponse r2) →
  σ !! Response.headers r2 = Some (CHeaders h2) →
  (∀ r1, σ !! res1 = Some (CResponse r1) →
         Response.headers r1 ≠ Response.headers r2) →
  originOr (spread defaultOptions o) = Static value →
  regexFree value = true →
  ∃ h',
    (initCors options req2 res2 σ).2 !! Response.headers r2
    = Some (CHeaders h')
    ∧ (initCors options req2 res2 (initCors options req1 res1 σ).2).2
        !! Response.headers r2
      = Some (CHeaders h')
    ∧ ((∃ ret, (initCors options req2 res2 σ).1 = Ok ret)
       ↔ ∃ ret, (initCors options req2 res2
                   (initCors options req1 res1 σ).2).1 = Ok ret)
    ∧ (∀ e, (initCors options req2 res2 σ).1 = Throw e
            ↔ (initCors options req2 res2
                 (initCors options req1 res1 σ).2).1 = Throw e).
Proof.
  intros Ho Hr Hh Hother _ _. unfold initCors.
  set (σ1 := (cors req1 res1 options σ).2).
  assert (Hk : keeps σ σ1) by apply cors_keeping.
  assert (Ho1 : optionsAt σ1 options o) by (by eapply optionsAt_keeps).
  assert (Hr1 : σ1 !! res2 = Some (CResponse r2)) by (by apply Hk).
  assert (Hh1 : σ1 !! Response.headers r2 = Some (CHeaders h2)).
  { unfold σ1. rewrite cors_framed; [done|by eauto|].
    intros r1 Hres1 Heq. by apply (Hother r1). }
  destruct (cors_leaves req2 _ _ _ _ _ _ Ho Hr Hh) as (_ & Hl & He).
  destruct (cors_leaves req2 _ _ _ _ _ _ Ho1 Hr1 Hh1) as (_ & Hl1 & He1).
  exists (leaves req2 o h2). do 2 (split; [done|]).
  destruct (ending req2 o) as [e|].
  - rewrite He, He1. split; [split; by intros [ret ?]|done].
  - destruct He as [ret ->], He1 as [ret1 ->].
    split; [split; by eauto|done].
Qed.

Lemma initCors_calls_independent_witness :
  ∃ h',
    (initCors (Some 3%positive) (sampleRequest "GET" "https://b.example")
       4%positive
       (twoResponses ∅ ∅ (withOrigin (Static (OBool true))))).2 !! 5%positive
    = Some (CHeaders h')
    ∧ (initCors (Some 3%positive) (sampleRequest "GET" "https://b.example")
         4%positive
         (initCors (Some 3%positive)
            (sampleRequest "OPTIONS" "https://a.example") 1%positive
            (twoResponses ∅ ∅ (withOrigin (Static (OBool true))))).2).2
        !! 5%positive
      = Some (CHeaders h').
Proof.
  destruct (initCors_calls_independent (Some 3%positive)
              (sampleRequest "OPTIONS" "https://a.example") 1%positive
              (sampleRequest "GET" "https://b.example") 4%positive
              (twoResponses ∅ ∅ (withOrigin (Static (OBool true))))
              (Response.mk 5 200 None) ∅ (withOrigin (Static (OBool true)))
              (OBool true))
    as (h' & Hfirst & Hsecond & _).
  - reflexivity.
  - reflexivity.
  - reflexivity.
  - intros r1 Hr1. vm_compute in Hr1. injection Hr1 as <-. discriminate.
  - reflexivity.
  - reflexivity.
  - exists h'. split; [exact Hfirst|exact Hsecond].
Defined.

End repeated_calls.

(** ** Agreement with the repository's tests

    The runs of [test/cors.js], on the definitions above. *)

Section test_suite.

Example test_default_get :
  entriesAt 2 (cors (Request.mk "GET" ∅) 1%positive None
                 (sampleStore {["content-type" := ["application/json"]]} noOptions))
  = Some [("access-control-allow-origin", "*");
          ("content-type", "application/json")].
Proof. reflexivity. Qed.

Example test_default_preflight :
  let run := cors (Request.mk "OPTIONS" ∅) 1%positive None
               (sampleStore ∅ noOptions) in
  statusOf run = Some 204%Z
  ∧ entriesAt 2 run
    = Some [("access-control-allow-methods", "GET,HEAD,PUT,PATCH,POST,DELETE");
            ("access-control-allow-origin", "*");
            ("content-length", "0");
            ("vary", "Access-Control-Request-Headers")].
Proof. split; reflexivity. Qed.

Example test_override_defaults :
  entriesAt 2
    (cors (Request.mk "OPTIONS" ∅) 1%positive (Some 3%positive)
       (sampleStore ∅
          (optionsOf (Value (Static (OStr "https://vercel.com")))
             (Value (Arr ["FOO"; "bar"])) (Value (Arr ["FIZZ"; "buzz"]))
             Omitted (Value true) (Value (Number.ofZ 123)))))
  = Some [("access-control-allow-credentials", "true");
          ("access-control-allow-headers", "FIZZ,buzz");
          ("access-control-allow-methods", "FOO,bar");
          ("access-control-allow-origin", "https://vercel.com");
          ("access-control-max-age", "123");
          ("content-length", "0");
          ("vary", "Origin")].
Proof. reflexivity. Qed.

Example test_regexp_and_array :
  entriesAt 2
    (cors (sampleRequest "GET" "https://vercel.com") 1%positive (Some 3%positive)
       (sampleStore ∅
          (withOrigin
             (Static (OArr [ORegExp (endsWith "foo.com");
                            OStr "https://vercel.com"])))))
  = Some [("access-control-allow-origin", "https://vercel.com");
          ("vary", "Origin")]
  ∧ entriesAt 2
      (cors (sampleRequest "GET" "https://vercel.com") 1%positive (Some 3%positive)
         (sampleStore ∅
            (withOrigin
               (Static (OArr [ORegExp (endsWith "foo.com");
                              OStr "https://notvercel.com"])))))
    = Some [("vary", "Origin")]
  ∧ entriesAt 2
      (cors (sampleRequest "GET" "https://vercel.com") 1%positive (Some 3%positive)
         (sampleStore ∅
            (withOrigin (Static (ORegExp (endsWith "vercel.com"))))))
    = Some [("access-control-allow-origin", "https://vercel.com");
            ("vary", "Origin")].
Proof. repeat split; reflexivity. Qed.

Example test_origin_false_and_function :
  let fn : OriginFn :=
    λ origin _, Ok (OBool (bool_decide (origin = Some "https://vercel.com"))) in
  entriesAt 2
    (cors (sampleRequest "GET" "https://vercel.com") 1%positive (Some 3%positive)
       (sampleStore ∅ (withOrigin (Static (OBool false)))))
  = Some []
  ∧ entriesAt 2
      (cors (sampleRequest "GET" "https://vercel.com") 1%positive (Some 3%positive)
         (sampleStore ∅ (withOrigin (Fn fn))))
    = Some [("access-control-allow-origin", "https://vercel.com");
            ("vary", "Origin")]
  ∧ entriesAt 2
      (cors (sampleRequest "GET" "https://notvercel.com") 1%positive
         (Some 3%positive) (sampleStore ∅ (withOrigin (Fn fn))))
    = Some [].
Proof. repeat split; reflexivity. Qed.

Example test_vary_appended :
  entriesAt 2
    (cors (Request.mk "GET" ∅) 1%positive (Some 3%positive)
       (sampleStore {["vary" := ["Foo"]]}
          (withOrigin (Static (OStr "https://vercel.com")))))
  = Some [("access-control-allow-origin", "https://vercel.com");
          ("vary", "Foo, Origin")].
Proof. reflexivity. Qed.

Example test_empty_allowed_headers :
  let expected :=
    Some [("access-control-allow-methods", "GET,HEAD,PUT,PATCH,POST,DELETE");
          ("access-control-allow-origin", "*");
          ("content-length", "0")] in
  entriesAt 2
    (cors (Request.mk "OPTIONS" ∅) 1%positive (Some 3%positive)
       (sampleStore ∅
          (optionsOf Omitted Omitted (Value (Arr [])) Omitted Omitted Omitted)))
  = expected
  ∧ entriesAt 2
      (cors (Request.mk "OPTIONS" ∅) 1%positive (Some 3%positive)
         (sampleStore ∅
            (optionsOf Omitted Omitted (Value (Str "")) Omitted Omitted Omitted)))
    = expected.
Proof. split; reflexivity. Qed.

Example test_reflected_and_exposed_headers :
  entriesAt 2 (cors samplePreflight 1%positive None (sampleStore ∅ noOptions))
  = Some [("access-control-allow-headers", "x-header-1, x-header-2");
          ("access-control-allow-methods", "GET,HEAD,PUT,PATCH,POST,DELETE");
          ("access-control-allow-origin", "*");
          ("content-length", "0");
          ("vary", "Access-Control-Request-Headers")]
  ∧ entriesAt 2
      (cors (Request.mk "OPTIONS" ∅) 1%positive (Some 3%positive)
         (sampleStore ∅
            (optionsOf Omitted Omitted Omitted
               (Value (Arr ["custom-header1"; "custom-header2"]))
               Omitted Omitted)))
    = Some [("access-control-allow-methods", "GET,HEAD,PUT,PATCH,POST,DELETE");
            ("access-control-allow-origin", "*");
            ("access-control-expose-headers", "custom-header1,custom-header2");
            ("content-length", "0");
            ("vary", "Access-Control-Request-Headers")].
Proof. split; reflexivity. Qed.

Example test_maxAge_zero :
  entriesAt 2
    (cors (Request.mk "OPTIONS" ∅) 1%positive (Some 3%positive)
       (sampleStore ∅ (withMaxAge (Number.ofZ 0))))
  = Some [("access-control-allow-methods", "GET,HEAD,PUT,PATCH,POST,DELETE");
          ("access-control-allow-origin", "*");
          ("access-control-max-age", "0");
          ("content-length", "0");
          ("vary", "Access-Control-Request-Headers")].
Proof. reflexivity. Qed.

End test_suite.

(** ** What the platform does to values

    Runs that show the platform at work: a value is stored without the
    whitespace around it, a value with a line feed inside is refused, a
    status is converted to an unsigned short and refused outside 200 to
    599, and a number is written as [String] writes it. *)

Section platform_runs.

Example run_value_trimmed :
  entriesAt 2
    (cors (Request.mk "GET" ∅) 1%positive (Some 3%positive)
       (sampleStore ∅ (withOrigin (Static (OStr " https://vercel.com ")))))
  = Some [("access-control-allow-origin", "https://vercel.com");
          ("vary", "Origin")].
Proof. reflexivity. Qed.

Example run_value_refused :
  (cors (Request.mk "GET" ∅) 1%positive (Some 3%positive)
     (sampleStore ∅ (withOrigin (Static (OStr twoLines))))).1
  = Throw TypeError.
Proof. reflexivity. Qed.

Example run_status_refused :
  (cors (Request.mk "OPTIONS" ∅) 1%positive (Some 3%positive)
     (sampleStore ∅ (withStatus (Number.ofZ 99)))).1
  = Throw RangeError
  ∧ statusOf
      (cors (Request.mk "OPTIONS" ∅) 1%positive (Some 3%positive)
         (sampleStore ∅ (withStatus (Number.ofZ 65740))))
    = Some 204%Z
  ∧ (cors (Request.mk "OPTIONS" ∅) 1%positive (Some 3%positive)
       (sampleStore ∅ (withStatus Number.NaN))).1
    = Throw RangeError.
Proof. repeat split; reflexivity. Qed.

Example run_number_written :
  Headers.get
    (leaves (Request.mk "OPTIONS" ∅) (withMaxAge Number.oneAndAHalf) ∅)
    "Access-Control-Max-Age"
  = Some "1.5"
  ∧ Headers.get
      (leaves (Request.mk "OPTIONS" ∅) (withMaxAge Number.NaN) ∅)
      "Access-Control-Max-Age"
    = Some "NaN".
Proof. split; reflexivity. Qed.

End platform_runs.
